(** * The platefile blob manager (vw/Plate/BlobManager.cc)

    A shallow embedding of the blob lock table of the Vision Workbench
    plate file: the constructor, [increment_blob_index],
    [get_next_available_blob], [request_lock] and [release_lock], followed
    by the properties of the allocator that are established on it. *)

From Stdlib Require Import ZArith Lia Bool List.
From stdpp Require Import base list.

Local Open Scope Z_scope.

(** ** Machine integers

    [int] and [unsigned] are 32 bits wide; [int64], [uint64] (the typedefs of
    vw/Core/FundamentalTypes.h) and [size_t] are 64 bits wide.  Values are
    kept in [Z]; every conversion and every arithmetic result of a fixed
    width is reduced explicitly, a signed result to its two's complement
    representative. *)

Module Cxx.

Definition int_min : Z := -2147483648.
Definition int_max : Z := 2147483647.
Definition int64_min : Z := -9223372036854775808.
Definition int64_max : Z := 9223372036854775807.

Definition in_int (z : Z) : Prop := int_min <= z <= int_max.
Definition in_int64 (z : Z) : Prop := int64_min <= z <= int64_max.

(** Reduction of a mathematical result to the two's complement [int]. *)
Definition wrap_int (z : Z) : Z := (z + 2147483648) mod 4294967296 - 2147483648.

(** Reduction of a mathematical result to the two's complement [int64]. *)
Definition wrap_int64 (z : Z) : Z :=
  (z + 9223372036854775808) mod 18446744073709551616 - 9223372036854775808.

(** Conversion to the unsigned 64-bit [size_t]. *)
Definition to_size_t (z : Z) : Z := z mod 18446744073709551616.

(** Conversion to the unsigned 64-bit [uint64]. *)
Definition to_uint64 (z : Z) : Z := z mod 18446744073709551616.

(** Conversion to the 32-bit [unsigned]. *)
Definition to_unsigned (z : Z) : Z := z mod 4294967296.

End Cxx.

Import Cxx.

(** ** Data *)

(** Modelled from the spec: the declarations of [BlobRecord] and of the
    members of [BlobManager] live in vw/Plate/BlobManager.h, which is not
    among the sources.  The data model of the specification gives a segment
    record a boolean lock flag and an integer write cursor, and the allocator
    an integer segment capacity, an integer segment cap, the ordered sequence
    of records and an integer search cursor; the fields below carry the names
    the implementation file uses for them.  The implementation file fixes
    the machine types the members are used at: [current_blob_offset] is
    assigned the [uint64] argument of [release_lock], [m_max_blob_size] is
    computed in [int64] and returned as [int64], [m_max_blobs] is initialised
    from an [int], and [m_blob_index] is passed as an [int&].  The members
    are taken with these types, and a comparison between two of them, or
    with [size()], converts its operands as the language does. *)
Record BlobRecord : Type := mkBlobRecord {
  locked : bool;
  current_blob_offset : Z
}.

Record BlobManager : Type := mkBlobManager {
  m_max_blob_size : Z;
  m_max_blobs : Z;
  m_blob_locks : list BlobRecord;
  m_blob_index : Z
}.

(** Exceptions raised through [vw_throw]. *)
Inductive Exception : Type :=
| ArgumentErr
| BlobLimitErr.

(** The outcome of a member function: a normal return with the state of the
    object afterwards, an exception with the state the object is left in, an
    element access outside the vector (undefined behaviour), or a loop that
    was cut off by the bound given to it. *)
Inductive Result (A : Type) : Type :=
| Ret (a : A) (b : BlobManager)
| Throw (e : Exception) (b : BlobManager)
| Undefined
| OutOfFuel.

Arguments Ret {A} a b.
Arguments Throw {A} e b.
Arguments Undefined {A}.
Arguments OutOfFuel {A}.

(** The state an outcome leaves the object in, when there is one. *)
Definition state_of {A : Type} (r : Result A) : option BlobManager :=
  match r with
  | Ret _ b => Some b
  | Throw _ b => Some b
  | Undefined => None
  | OutOfFuel => None
  end.

(** [m_blob_locks.size()] *)
Definition size (b : BlobManager) : Z := Z.of_nat (length (m_blob_locks b)).

(** [v[i]] for an [int] index: the index is converted to [size_t], so a
    negative one lies beyond every vector; an access outside the vector has
    no defined result. *)
Definition vec_at (v : list BlobRecord) (i : Z) : option BlobRecord :=
  if 0 <=? i then v !! Z.to_nat i else None.

(** [v[i].field = ...]: the record at [i] replaced by [f] of it. *)
Definition vec_update (v : list BlobRecord) (i : Z) (f : BlobRecord -> BlobRecord)
  : option (list BlobRecord) :=
  match vec_at v i with
  | Some r => Some (<[Z.to_nat i := f r]> v)
  | None => None
  end.

Definition set_locked (l : bool) (r : BlobRecord) : BlobRecord :=
  {| locked := l; current_blob_offset := current_blob_offset r |}.

Definition set_offset (o : Z) (r : BlobRecord) : BlobRecord :=
  {| locked := locked r; current_blob_offset := o |}.

Definition set_blob_index (b : BlobManager) (i : Z) : BlobManager :=
  {| m_max_blob_size := m_max_blob_size b;
     m_max_blobs := m_max_blobs b;
     m_blob_locks := m_blob_locks b;
     m_blob_index := i |}.

Definition set_blob_locks (b : BlobManager) (v : list BlobRecord) : BlobManager :=
  {| m_max_blob_size := m_max_blob_size b;
     m_max_blobs := m_max_blobs b;
     m_blob_locks := v;
     m_blob_index := m_blob_index b |}.

(** ** Operations *)

(** [increment_blob_index(int &blob_index)]: the new value of the referenced
    [int].  The comparison with [size()] is made in [size_t]. *)
Definition increment_blob_index (b : BlobManager) (blob_index : Z) : Z :=
  let blob_index := wrap_int (blob_index + 1) in
  if to_size_t blob_index >=? size b then 0 else blob_index.

(** The test made on a record by both scans: unlocked and not full.  The
    offset is a [uint64] and the capacity an [int64]: the comparison is made
    in [uint64], so that a negative capacity counts as a very large one. *)
Definition available (b : BlobManager) (r : BlobRecord) : bool :=
  negb (locked r) && (current_blob_offset r <? to_uint64 (m_max_blob_size b)).

(** The [while (m_blob_index != starting_blob)] loop.  [Ret (Some id)] is the
    [return m_blob_index] inside the loop, [Ret None] its normal exit. *)
Fixpoint search (fuel : nat) (b : BlobManager) (starting_blob : Z) : Result (option Z) :=
  match fuel with
  | O => OutOfFuel
  | S fuel' =>
      if m_blob_index b =? starting_blob then Ret None b
      else
        match vec_at (m_blob_locks b) (m_blob_index b) with
        | None => Undefined
        | Some r =>
            if available b r then Ret (Some (m_blob_index b)) b
            else search fuel'
                   (set_blob_index b (increment_blob_index b (m_blob_index b)))
                   starting_blob
        end
  end.

(** The record appended when the table grows. *)
Definition fresh_record : BlobRecord :=
  {| locked := false; current_blob_offset := 0 |}.

(** [get_next_available_blob()]; the loop is given one turn per record,
    which is enough for it to come back to [starting_blob] (see
    [request_lock_defined]).  The number of records is compared with the cap
    in [size_t], so that a negative cap is never reached; the value returned
    for an appended record is [size() - 1], computed in [size_t] and
    converted to [int]. *)
Definition get_next_available_blob (b : BlobManager) : Result Z :=
  let b := set_blob_index b (increment_blob_index b (m_blob_index b)) in
  match vec_at (m_blob_locks b) (m_blob_index b) with
  | None => Undefined
  | Some r =>
      if available b r then Ret (m_blob_index b) b
      else
        let starting_blob := m_blob_index b in
        let b := set_blob_index b (increment_blob_index b (m_blob_index b)) in
        match search (length (m_blob_locks b)) b starting_blob with
        | Ret (Some id) b => Ret id b
        | Ret None b =>
            if size b >=? to_size_t (m_max_blobs b) then Ret (-1) b
            else
              let b := set_blob_locks b (m_blob_locks b ++ [fresh_record]) in
              Ret (wrap_int (to_size_t (size b - 1))) b
        | Throw e b => Throw e b
        | Undefined => Undefined
        | OutOfFuel => OutOfFuel
        end
  end.

(** [request_lock(int64 size)] *)
Definition request_lock (b : BlobManager) (size : Z) : Result Z :=
  match get_next_available_blob b with
  | Ret next_available_blob b =>
      if next_available_blob =? -1 then Throw BlobLimitErr b
      else
        match vec_update (m_blob_locks b) next_available_blob (set_locked true) with
        | Some v => Ret next_available_blob (set_blob_locks b v)
        | None => Undefined
        end
  | Throw e b => Throw e b
  | Undefined => Undefined
  | OutOfFuel => OutOfFuel
  end.

(** [release_lock(int blob_id, uint64 blob_offset)] *)
Definition release_lock (b : BlobManager) (blob_id : Z) (blob_offset : Z) : Result unit :=
  match vec_update (m_blob_locks b) blob_id (set_offset blob_offset) with
  | None => Undefined
  | Some v =>
      match vec_update v blob_id (set_locked false) with
      | None => Undefined
      | Some v' => Ret tt (set_blob_locks b v')
      end
  end.

(** [num_blobs()], an [unsigned]. *)
Definition num_blobs (b : BlobManager) : Z := to_unsigned (size b).

(** [max_blob_size()] *)
Definition max_blob_size (b : BlobManager) : Z := m_max_blob_size b.

(** Modelled from the spec: the macro [VW_ASSERT] is defined in
    vw/Core/Exception.h, which is not among the sources.  By the
    specification construction fails with an invalid-argument error when the
    initial count is below 1, which is the condition handed to the macro: it
    throws the given exception when the condition is false and goes on
    otherwise. *)
Definition VW_ASSERT {A : Type} (cond : bool) (e : Exception) (rest : Exception + A)
  : Exception + A :=
  if cond then rest else inl e.

(** [v.resize(n)]: the first [n] records of [v], followed by
    value-initialised records up to the length [n]. *)
Definition resize (v : list BlobRecord) (n : Z) : list BlobRecord :=
  take (Z.to_nat n) v ++ replicate (Z.to_nat n - length v) (mkBlobRecord false 0).

(** The constructor.  The member initialisers compute
    [max_blob_size * 1024 * 1024] in [int64] and start from an empty vector
    and the cursor 0; the assertion comes next; [resize] then creates the
    records and the loop writes the offset and the lock flag of each. *)
Definition construct (max_blob_size initial_nblobs max_blobs : Z)
  : Exception + BlobManager :=
  let b := {| m_max_blob_size := wrap_int64 (wrap_int64 (max_blob_size * 1024) * 1024);
              m_max_blobs := max_blobs;
              m_blob_locks := [];
              m_blob_index := 0 |} in
  VW_ASSERT (initial_nblobs >=? 1) ArgumentErr
    (let b := set_blob_locks b (resize (m_blob_locks b) initial_nblobs) in
     inr (set_blob_locks b
            (map (fun r => set_locked false (set_offset 0 r)) (m_blob_locks b)))).

(** ** Call sequences *)

(** A call made on the allocator by a single thread. *)
Inductive Call : Type :=
| CallRequest (size : Z)
| CallRelease (blob_id : Z) (blob_offset : Z).

(** The state after one call; an exception leaves the object in use. *)
Definition step (b : BlobManager) (c : Call) : option BlobManager :=
  match c with
  | CallRequest sz => state_of (request_lock b sz)
  | CallRelease id off => state_of (release_lock b id off)
  end.

(** The state after a sequence of calls, when all of them are defined. *)
Fixpoint run (b : BlobManager) (cs : list Call) : option BlobManager :=
  match cs with
  | [] => Some b
  | c :: cs' =>
      match step b c with
      | Some b' => run b' cs'
      | None => None
      end
  end.

(** Whether a call releases the segment [id]. *)
Definition releases (id : Z) (c : Call) : bool :=
  match c with
  | CallRelease i _ => i =? id
  | CallRequest _ => false
  end.

(** The lock flag of segment [id]. *)
Definition is_locked (b : BlobManager) (id : Z) : option bool :=
  locked <$> vec_at (m_blob_locks b) id.

(** ** Predicates used in the statements *)

(** The cap has been reached, as [get_next_available_blob] tests it. *)
Definition cap_reached (b : BlobManager) : Prop :=
  to_size_t (m_max_blobs b) <= size b.

(** No record passes the availability test. *)
Definition none_available (b : BlobManager) : Prop :=
  Forall (fun r => available b r = false) (m_blob_locks b).

(** The members hold values of their types, and the table is one that calls
    can lead to: at most [INT_MAX] + 1 records, and at most [INT_MAX] when the
    cap is not negative. *)
Definition int_sized (b : BlobManager) : Prop :=
  size b <= int_max + 1 /\
  in_int (m_max_blobs b) /\
  in_int64 (m_max_blob_size b) /\
  (0 <= m_max_blobs b -> size b <= int_max).

(** The states the proofs work on: at least one record, and sizes that the
    [int] results can represent. *)
Definition usable (b : BlobManager) : Prop :=
  1 <= size b /\ int_sized b.

(** The search cursor designates a record of the table. *)
Definition search_ok (b : BlobManager) : Prop :=
  0 <= m_blob_index b < size b.

(** A segment id of the table. *)
Definition in_range (b : BlobManager) (id : Z) : Prop :=
  0 <= id < size b.

(** A record is locked, or full: its write cursor has reached the capacity. *)
Definition locked_or_full (b : BlobManager) (r : BlobRecord) : Prop :=
  locked r = true \/ current_blob_offset r >= m_max_blob_size b.

(** Every record is unlocked and not full. *)
Definition all_available (b : BlobManager) : Prop :=
  Forall (fun r => locked r = false /\ current_blob_offset r < m_max_blob_size b)
    (m_blob_locks b).

(** Number of [increment_blob_index] steps that lead from [j] to [s] in a
    table of [n] records. *)
Definition dist (n s j : Z) : Z :=
  if j <=? s then s - j else s - j + n.

(** [i] lies in the cyclic interval from [j] (included) to [s] (excluded). *)
Definition between (n j s i : Z) : Prop :=
  0 <= i < n /\ (if j <=? s then j <= i < s else j <= i \/ i < s).

(** The object once its cursor has been moved forward by one step. *)
Definition advanced (b : BlobManager) : BlobManager :=
  set_blob_index b (increment_blob_index b (m_blob_index b)).

(** Number of records of a table that pass the availability test. *)
Definition count_available (b : BlobManager) (v : list BlobRecord) : nat :=
  length (List.filter (available b) v).

(** The ids granted by a sequence of rounds, each a [request_lock] of some
    size followed at once by the [release_lock] of the granted segment with
    some offset. *)
Fixpoint request_release (b : BlobManager) (rounds : list (Z * Z))
  : option (list Z * BlobManager) :=
  match rounds with
  | [] => Some ([], b)
  | (sz, off) :: rounds' =>
      match request_lock b sz with
      | Ret id b1 =>
          match release_lock b1 id off with
          | Ret _ b2 =>
              match request_release b2 rounds' with
              | Some (ids, b3) => Some (id :: ids, b3)
              | None => None
              end
          | _ => None
          end
      | _ => None
      end
  end.

(** The states of an allocator in use: built by the constructor from
    arguments of its parameter types, then driven by calls. *)
Inductive reachable : BlobManager -> Prop :=
| reachable_construct max_blob_size initial_nblobs max_blobs b :
    in_int64 max_blob_size -> in_int initial_nblobs -> in_int max_blobs ->
    construct max_blob_size initial_nblobs max_blobs = inr b ->
    reachable b
| reachable_step b c b' :
    reachable b -> step b c = Some b' -> reachable b'.

(** ** Measures and call sequences used by the further properties *)

(** Whether segment [id] passes the availability test. *)
Definition is_available (b : BlobManager) (id : Z) : option bool :=
  available b <$> vec_at (m_blob_locks b) id.

(** Number of locked records of a table. *)
Definition count_locked (v : list BlobRecord) : nat :=
  length (List.filter locked v).

(** Number of grants the allocator can still make without a release: the
    available records, and the records it may still append. *)
Definition grants_left (b : BlobManager) : Z :=
  Z.of_nat (count_available b (m_blob_locks b)) + (m_max_blobs b - size b).

(** The ids granted by a sequence of [request_lock] calls that all return,
    no release in between. *)
Fixpoint request_all (b : BlobManager) (sizes : list Z)
  : option (list Z * BlobManager) :=
  match sizes with
  | [] => Some ([], b)
  | sz :: sizes' =>
      match request_lock b sz with
      | Ret id b1 =>
          match request_all b1 sizes' with
          | Some (ids, b2) => Some (id :: ids, b2)
          | None => None
          end
      | _ => None
      end
  end.

(** No grant is possible: no record is available and the cap is reached. *)
Definition saturated (b : BlobManager) : Prop :=
  none_available b /\ cap_reached b.

(** A call that frees no room: a request, or a release whose offset is at
    or above the capacity [cap] as the availability test reads it. *)
Definition frees_no_room (cap : Z) (c : Call) : Prop :=
  match c with
  | CallRequest _ => True
  | CallRelease _ off => to_uint64 cap <= off
  end.

(** ** Sample states *)

(** The allocator built by [construct 2 3 4]. *)
Definition three_blobs : BlobManager :=
  mkBlobManager 2097152 4 [fresh_record; fresh_record; fresh_record] 0.

(** [three_blobs] after a first request, which locks the record 1. *)
Definition three_blobs_one_locked : BlobManager :=
  mkBlobManager 2097152 4
    [fresh_record; mkBlobRecord true 0; fresh_record] 1.

(** The allocator built by [construct 2 1 1]. *)
Definition one_blob : BlobManager :=
  mkBlobManager 2097152 1 [fresh_record] 0.

(** [one_blob] after a first request: its only record is locked and the
    cap is reached. *)
Definition one_blob_locked : BlobManager :=
  mkBlobManager 2097152 1 [mkBlobRecord true 0] 0.

(** The allocator built by [construct (-1) 1 1]: a negative capacity. *)
Definition negative_capacity_blob : BlobManager :=
  mkBlobManager (-1048576) 1 [fresh_record] 0.

(** The allocator built by [construct (-1) 1 3]. *)
Definition negative_capacity_room : BlobManager :=
  mkBlobManager (-1048576) 3 [fresh_record] 0.

(** The allocator built by [construct 1 1 (-1)], a negative cap, after a
    first request. *)
Definition negative_cap_locked : BlobManager :=
  mkBlobManager 1048576 (-1) [mkBlobRecord true 0] 0.

(** The allocator built by [construct 1 2 2] after two requests: both
    records are locked and the cursor is back on the record 0. *)
Definition two_blobs_locked : BlobManager :=
  mkBlobManager 1048576 2 [mkBlobRecord true 0; mkBlobRecord true 0] 0.


(** ** Examples *)

Example ex_construct :
  construct 2 3 4 = inr (mkBlobManager 2097152 4
                           [mkBlobRecord false 0; mkBlobRecord false 0; mkBlobRecord false 0] 0).
Proof. reflexivity. Qed.

Example ex_request :
  request_lock (mkBlobManager 2097152 4
      [mkBlobRecord false 0; mkBlobRecord false 0; mkBlobRecord false 0] 0) 10
  = Ret 1 (mkBlobManager 2097152 4
      [mkBlobRecord false 0; mkBlobRecord true 0; mkBlobRecord false 0] 1).
Proof. reflexivity. Qed.

Example ex_request_release :
  fst <$> request_release (mkBlobManager 2097152 4
      [mkBlobRecord false 0; mkBlobRecord false 0; mkBlobRecord false 0] 0)
      [(1, 5); (1, 6); (1, 7); (1, 8)]
  = Some [1; 2; 0; 1].
Proof. reflexivity. Qed.

(** The degenerate capacity 0: every record is full from the start. *)
Example ex_zero_capacity :
  request_lock (mkBlobManager 0 3 [mkBlobRecord false 0] 0) 10
  = Ret 1 (mkBlobManager 0 3 [mkBlobRecord false 0; mkBlobRecord true 0] 0).
Proof. reflexivity. Qed.

(** A negative capacity is read as a very large one: the record is
    granted. *)
Example ex_negative_capacity :
  request_lock negative_capacity_blob 10
  = Ret 0 (mkBlobManager (-1048576) 1 [mkBlobRecord true 0] 0).
Proof. reflexivity. Qed.

(** A negative cap is never reached: the table grows. *)
Example ex_negative_cap :
  request_lock negative_cap_locked 10
  = Ret 1 (mkBlobManager 1048576 (-1)
             [mkBlobRecord true 0; mkBlobRecord true 0] 0).
Proof. reflexivity. Qed.

Example ex_limit :
  request_lock (mkBlobManager 8 2 [mkBlobRecord true 0; mkBlobRecord false 8] 1) 10
  = Throw BlobLimitErr (mkBlobManager 8 2 [mkBlobRecord true 0; mkBlobRecord false 8] 0).
Proof. reflexivity. Qed.

(** ** Machine arithmetic *)

Lemma wrap_int_small z : in_int z -> wrap_int z = z.
Proof.
  unfold in_int, int_min, int_max, wrap_int. intros H.
  rewrite Z.mod_small by lia. lia.
Qed.

Lemma wrap_int_range z : in_int (wrap_int z).
Proof.
  unfold in_int, int_min, int_max, wrap_int.
  pose proof (Z.mod_pos_bound (z + 2147483648) 4294967296 ltac:(lia)). lia.
Qed.

Lemma wrap_int_past_max : wrap_int (int_max + 1) = int_min.
Proof. reflexivity. Qed.

Lemma wrap_int64_small z : in_int64 z -> wrap_int64 z = z.
Proof.
  unfold in_int64, int64_min, int64_max, wrap_int64. intros H.
  rewrite Z.mod_small by lia. lia.
Qed.

Lemma wrap_int64_range z : in_int64 (wrap_int64 z).
Proof.
  unfold in_int64, int64_min, int64_max, wrap_int64.
  pose proof (Z.mod_pos_bound (z + 9223372036854775808) 18446744073709551616 ltac:(lia)).
  lia.
Qed.

(** Two successive reductions of a product by 1024 amount to one reduction
    of the product by 1048576. *)
Lemma wrap_int64_megabytes z :
  wrap_int64 (wrap_int64 (z * 1024) * 1024) = wrap_int64 (z * 1048576).
Proof.
  unfold wrap_int64. f_equal.
  pose proof (Z.div_mod (z * 1024 + 9223372036854775808) 18446744073709551616) as H.
  specialize (H ltac:(lia)).
  set (q := (z * 1024 + 9223372036854775808) / 18446744073709551616) in *.
  set (r := (z * 1024 + 9223372036854775808) mod 18446744073709551616) in *.
  replace ((r - 9223372036854775808) * 1024 + 9223372036854775808)
    with (z * 1048576 + 9223372036854775808 + (- (q * 1024)) * 18446744073709551616)
    by lia.
  apply Z.mod_add. lia.
Qed.

Lemma to_size_t_small z : 0 <= z <= int_max + 1 -> to_size_t z = z.
Proof.
  unfold to_size_t, int_max. intros H. apply Z.mod_small. lia.
Qed.

Lemma to_size_t_negative z : int_min <= z < 0 -> int_max + 1 < to_size_t z.
Proof.
  unfold to_size_t, int_min, int_max. intros H.
  replace z with (z + 18446744073709551616 + (-1) * 18446744073709551616) by lia.
  rewrite Z.mod_add by lia. rewrite Z.mod_small by lia. lia.
Qed.

(** A cap that is an [int]: unchanged by the conversion when it is not
    negative, beyond every table otherwise. *)
Lemma to_size_t_cap z :
  in_int z ->
  (0 <= z -> to_size_t z = z) /\ (z < 0 -> int_max + 1 < to_size_t z).
Proof.
  intros [Hlo Hhi]. split; intros H.
  - apply to_size_t_small. lia.
  - apply to_size_t_negative. lia.
Qed.

Lemma to_uint64_nonneg z : 0 <= z -> in_int64 z -> to_uint64 z = z.
Proof.
  unfold to_uint64, in_int64, int64_min, int64_max. intros H0 H.
  apply Z.mod_small. lia.
Qed.

(** The conversion never lowers a capacity. *)
Lemma to_uint64_ge z : in_int64 z -> z <= to_uint64 z.
Proof.
  intros H. destruct (Z_lt_le_dec z 0) as [Hneg | Hpos].
  - unfold to_uint64.
    pose proof (Z.mod_pos_bound z 18446744073709551616 ltac:(lia)). lia.
  - rewrite to_uint64_nonneg by assumption. lia.
Qed.

(** ** Elementary facts on the table *)

Lemma vec_at_Some v i r :
  vec_at v i = Some r <-> 0 <= i /\ v !! Z.to_nat i = Some r.
Proof.
  unfold vec_at. destruct (0 <=? i) eqn:E.
  - apply Z.leb_le in E. tauto.
  - apply Z.leb_gt in E. split; [discriminate | lia].
Qed.

Lemma vec_at_in_range v i r :
  vec_at v i = Some r -> 0 <= i < Z.of_nat (length v).
Proof.
  intros H. apply vec_at_Some in H as [H0 H].
  apply lookup_lt_Some in H. lia.
Qed.

Lemma vec_at_defined v i :
  0 <= i < Z.of_nat (length v) -> exists r, vec_at v i = Some r.
Proof.
  intros H. destruct (lookup_lt_is_Some_2 v (Z.to_nat i)) as [r Hr]; [lia|].
  exists r. apply vec_at_Some. split; [lia | exact Hr].
Qed.

Lemma vec_at_negative v i : i < 0 -> vec_at v i = None.
Proof.
  intros H. unfold vec_at. destruct (0 <=? i) eqn:E; [|reflexivity].
  apply Z.leb_le in E. lia.
Qed.

Lemma vec_at_of_nat v (k : nat) : vec_at v (Z.of_nat k) = v !! k.
Proof.
  unfold vec_at. destruct (0 <=? Z.of_nat k) eqn:E.
  - now rewrite Nat2Z.id.
  - apply Z.leb_gt in E. lia.
Qed.

Lemma set_blob_index_same b : set_blob_index b (m_blob_index b) = b.
Proof. now destruct b. Qed.

(** An available record is unlocked. *)
Lemma available_unlocked b r : available b r = true -> locked r = false.
Proof.
  unfold available. rewrite andb_true_iff, negb_true_iff. tauto.
Qed.

(** An unlocked record whose offset is below the capacity is available,
    whatever the sign of the capacity. *)
Lemma available_below b r :
  in_int64 (m_max_blob_size b) ->
  locked r = false -> current_blob_offset r < m_max_blob_size b ->
  available b r = true.
Proof.
  intros Hc Hl Ho. unfold available.
  rewrite andb_true_iff, negb_true_iff, Z.ltb_lt.
  pose proof (to_uint64_ge _ Hc). split; [exact Hl | lia].
Qed.

(** A record that fails the test is locked, or has an offset at or above
    the capacity. *)
Lemma unavailable_locked_or_full b r :
  in_int64 (m_max_blob_size b) ->
  available b r = false -> locked_or_full b r.
Proof.
  intros Hc. unfold available, locked_or_full. destruct (locked r); simpl.
  - now left.
  - rewrite Z.ltb_ge. pose proof (to_uint64_ge _ Hc) as Hge. intros H. right. lia.
Qed.

(** For a capacity that is not negative, the test is the comparison of the
    offset with the capacity. *)
Lemma available_false b r :
  0 <= m_max_blob_size b -> in_int64 (m_max_blob_size b) ->
  available b r = false <-> locked_or_full b r.
Proof.
  intros H0 Hc. unfold available, locked_or_full.
  rewrite (to_uint64_nonneg _ H0 Hc). destruct (locked r); simpl.
  - split; [now left | reflexivity].
  - rewrite Z.ltb_ge. split; [intros; right; lia | intros [H|H]; [discriminate | lia]].
Qed.

Lemma Forall_vec_at (P : BlobRecord -> Prop) v :
  Forall P v <-> forall i r, vec_at v i = Some r -> P r.
Proof.
  rewrite Forall_lookup. split.
  - intros H i r Hi. apply vec_at_Some in Hi as [_ Hi]. eauto.
  - intros H k r Hk. apply (H (Z.of_nat k)). now rewrite vec_at_of_nat.
Qed.

(** ** The cursor *)

Section Cursor.

Variable b : BlobManager.
Hypothesis Hsize : 1 <= size b <= int_max + 1.

(** Whatever [int] the cursor holds, one increment puts it on a record. *)
Lemma increment_blob_index_range i :
  0 <= increment_blob_index b i < size b.
Proof using Hsize.
  unfold increment_blob_index.
  pose proof (wrap_int_range (i + 1)) as [Hlo Hhi].
  destruct (to_size_t (wrap_int (i + 1)) >=? size b) eqn:E; [lia|].
  rewrite Z.geb_leb, Z.leb_gt in E.
  destruct (Z_lt_le_dec (wrap_int (i + 1)) 0) as [Hneg|Hpos].
  - pose proof (to_size_t_negative (wrap_int (i + 1)) ltac:(lia)). lia.
  - rewrite to_size_t_small in E by lia. lia.
Qed.

(** On a record of the table, the increment is the successor modulo the
    number of records. *)
Lemma increment_blob_index_next i :
  0 <= i < size b ->
  increment_blob_index b i = if i + 1 <? size b then i + 1 else 0.
Proof using Hsize.
  intros Hi. unfold increment_blob_index.
  destruct (Z.eq_dec i int_max) as [-> | Hne].
  - rewrite wrap_int_past_max.
    pose proof (to_size_t_negative int_min) as Hn.
    unfold int_min, int_max in *.
    destruct (to_size_t (-2147483648) >=? size b) eqn:E.
    + destruct (2147483647 + 1 <? size b) eqn:E'; [|reflexivity].
      apply Z.ltb_lt in E'. lia.
    + rewrite Z.geb_leb, Z.leb_gt in E. lia.
  - rewrite wrap_int_small by (unfold in_int, int_min, int_max in *; lia).
    rewrite to_size_t_small by lia.
    destruct (i + 1 <? size b) eqn:E.
    + apply Z.ltb_lt in E. destruct (i + 1 >=? size b) eqn:E'; [|reflexivity].
      rewrite Z.geb_leb, Z.leb_le in E'. lia.
    + apply Z.ltb_ge in E. destruct (i + 1 >=? size b) eqn:E'; [reflexivity|].
      rewrite Z.geb_leb, Z.leb_gt in E'. lia.
Qed.

Lemma increment_blob_index_mod i :
  0 <= i < size b ->
  increment_blob_index b i = (i + 1) mod size b.
Proof using Hsize.
  intros Hi. rewrite increment_blob_index_next by exact Hi.
  destruct (i + 1 <? size b) eqn:E.
  - apply Z.ltb_lt in E. now rewrite Z.mod_small by lia.
  - apply Z.ltb_ge in E. replace (i + 1) with (size b) by lia.
    now rewrite Z.mod_same by lia.
Qed.

Lemma dist_increment s j :
  0 <= s < size b -> 0 <= j < size b -> j <> s ->
  dist (size b) s (increment_blob_index b j) = dist (size b) s j - 1.
Proof using Hsize.
  intros Hs Hj Hne. rewrite increment_blob_index_next by exact Hj.
  unfold dist.
  destruct (j + 1 <? size b) eqn:E; [apply Z.ltb_lt in E | apply Z.ltb_ge in E];
    repeat match goal with
           | |- context [?x <=? ?y] =>
               let E' := fresh in
               destruct (x <=? y) eqn:E';
               [apply Z.leb_le in E' | apply Z.leb_gt in E']
           end; lia.
Qed.

Lemma between_increment s j i :
  0 <= s < size b -> 0 <= j < size b -> j <> s ->
  between (size b) j s i ->
  i = j \/ between (size b) (increment_blob_index b j) s i.
Proof using Hsize.
  intros Hs Hj Hne. rewrite increment_blob_index_next by exact Hj.
  unfold between. intros [Hi H].
  destruct (j + 1 <? size b) eqn:E; [apply Z.ltb_lt in E | apply Z.ltb_ge in E];
    repeat match goal with
           | _ : context [?x <=? ?y] |- _ =>
               let E' := fresh in
               destruct (x <=? y) eqn:E';
               [apply Z.leb_le in E' | apply Z.leb_gt in E']
           | |- context [?x <=? ?y] =>
               let E' := fresh in
               destruct (x <=? y) eqn:E';
               [apply Z.leb_le in E' | apply Z.leb_gt in E']
           end; lia.
Qed.

End Cursor.

(** ** The scan *)

(** The loop, started on a record [j] at distance less than [fuel] from
    [starting_blob], either returns an available record and leaves the
    cursor on it, or ends on [starting_blob] after it has found every record
    from [j] up to [starting_blob] unavailable. *)
Lemma search_spec fuel :
  forall b s,
    1 <= size b <= int_max + 1 ->
    0 <= s < size b ->
    0 <= m_blob_index b < size b ->
    dist (size b) s (m_blob_index b) < Z.of_nat fuel ->
    (exists id r,
        search fuel b s = Ret (Some id) (set_blob_index b id) /\
        vec_at (m_blob_locks b) id = Some r /\ available b r = true)
    \/ (search fuel b s = Ret None (set_blob_index b s) /\
        forall i r, between (size b) (m_blob_index b) s i ->
                    vec_at (m_blob_locks b) i = Some r -> available b r = false).
Proof.
  induction fuel as [|fuel IH]; intros b s Hsize Hs Hj Hd.
  - exfalso. unfold dist in Hd.
    destruct (m_blob_index b <=? s) eqn:E;
      [apply Z.leb_le in E | apply Z.leb_gt in E]; lia.
  - simpl. destruct (m_blob_index b =? s) eqn:Eq.
    + apply Z.eqb_eq in Eq. right. split.
      * rewrite <- Eq. now rewrite set_blob_index_same.
      * intros i r [_ Hb] _. rewrite Eq, Z.leb_refl in Hb. lia.
    + apply Z.eqb_neq in Eq.
      destruct (vec_at_defined (m_blob_locks b) (m_blob_index b) Hj) as [r Hr].
      rewrite Hr. destruct (available b r) eqn:Ea.
      * left. exists (m_blob_index b), r.
        now rewrite set_blob_index_same.
      * pose proof (increment_blob_index_range b Hsize (m_blob_index b)) as Hinc.
        pose proof (dist_increment b Hsize s (m_blob_index b) Hs Hj Eq) as Hdist.
        destruct (IH (set_blob_index b (increment_blob_index b (m_blob_index b))) s)
          as [(id & r' & Hsearch & Hat & Hav) | [Hsearch Hall]];
          try assumption.
        { simpl. unfold size in *. simpl. lia. }
        { left. exists id, r'. split; [exact Hsearch | split; assumption]. }
        { right. split; [exact Hsearch|].
          intros i r' Hbetween Hat.
          destruct (between_increment b Hsize s (m_blob_index b) i Hs Hj Eq Hbetween)
            as [-> | Hnext].
          - rewrite Hr in Hat. now inversion Hat; subst.
          - exact (Hall i r' Hnext Hat). }
Qed.

(** [get_next_available_blob] either returns an available record and leaves
    the cursor on it, or has found every record unavailable; it then leaves
    the cursor one step beyond its initial position, and returns -1 when the
    cap is reached and otherwise the number of records, converted to [int],
    for a record appended to the table. *)
Lemma get_next_available_blob_spec b :
  1 <= size b <= int_max + 1 ->
  (exists id r,
      get_next_available_blob b = Ret id (set_blob_index b id) /\
      vec_at (m_blob_locks b) id = Some r /\ available b r = true)
  \/ (Forall (fun r => available b r = false) (m_blob_locks b) /\
      get_next_available_blob b =
        if size b >=? to_size_t (m_max_blobs b) then Ret (-1) (advanced b)
        else Ret (wrap_int (size b))
               (set_blob_locks (advanced b) (m_blob_locks b ++ [fresh_record]))).
Proof.
  intros Hsize. unfold get_next_available_blob.
  pose proof (increment_blob_index_range b Hsize (m_blob_index b)) as H1.
  set (i1 := increment_blob_index b (m_blob_index b)) in *.
  cbn [m_blob_locks m_blob_index set_blob_index].
  destruct (vec_at_defined (m_blob_locks b) i1 H1) as [r1 Hr1].
  rewrite Hr1.
  change (available (set_blob_index b i1) r1) with (available b r1).
  destruct (available b r1) eqn:Ea1.
  { left. exists i1, r1. auto. }
  change (increment_blob_index (set_blob_index b i1) i1)
    with (increment_blob_index b i1).
  pose proof (increment_blob_index_range b Hsize i1) as H2.
  set (i2 := increment_blob_index b i1) in *.
  change (set_blob_index (set_blob_index b i1) i2) with (set_blob_index b i2).
  destruct (search_spec (length (m_blob_locks b)) (set_blob_index b i2) i1)
    as [(id & r & Hsearch & Hat & Hav) | [Hsearch Hall]]; try assumption.
  { cbn [m_blob_index set_blob_index].
    change (size (set_blob_index b i2)) with (size b).
    subst i2. rewrite increment_blob_index_next by assumption.
    unfold dist, size in *.
    destruct (i1 + 1 <? Z.of_nat (length (m_blob_locks b))) eqn:E;
      [apply Z.ltb_lt in E | apply Z.ltb_ge in E];
      match goal with
      | |- context [?x <=? ?y] =>
          let E' := fresh in
          destruct (x <=? y) eqn:E'; [apply Z.leb_le in E' | apply Z.leb_gt in E']
      end; lia. }
  { left. rewrite Hsearch. exists id, r. split; [reflexivity | auto]. }
  right. rewrite Hsearch.
  cbn [m_blob_locks m_blob_index m_max_blobs set_blob_index set_blob_locks] in *.
  change (size (set_blob_index b i2)) with (size b) in *.
  change (set_blob_index (set_blob_index b i2) i1) with (advanced b).
  change (size (advanced b)) with (size b).
  split.
  - apply Forall_vec_at. intros i r Hi.
    destruct (Z.eq_dec i i1) as [-> | Hne].
    + rewrite Hr1 in Hi. now inversion Hi; subst.
    + apply (Hall i r); [|exact Hi].
      pose proof (vec_at_in_range _ _ _ Hi) as Hir.
      subst i2. rewrite increment_blob_index_next by assumption.
      unfold between, size in *. split; [exact Hir|].
      destruct (i1 + 1 <? Z.of_nat (length (m_blob_locks b))) eqn:E;
        [apply Z.ltb_lt in E | apply Z.ltb_ge in E];
        match goal with
        | |- context [?x <=? ?y] =>
            let E' := fresh in
            destruct (x <=? y) eqn:E'; [apply Z.leb_le in E' | apply Z.leb_gt in E']
        end; lia.
  - destruct (size b >=? to_size_t (m_max_blobs b)); [reflexivity|].
    f_equal.
    unfold size. cbn [m_blob_locks set_blob_locks]. rewrite length_app. simpl.
    unfold size in Hsize.
    replace (Z.of_nat (length (m_blob_locks b) + 1) - 1)
      with (Z.of_nat (length (m_blob_locks b))) by lia.
    now rewrite to_size_t_small by lia.
Qed.

(** ** The outcomes of [request_lock] *)

Lemma vec_update_last v r f :
  vec_update (v ++ [r]) (Z.of_nat (length v)) f = Some (v ++ [f r]).
Proof.
  unfold vec_update. rewrite vec_at_of_nat, Nat2Z.id.
  rewrite lookup_app_r by lia. rewrite Nat.sub_diag. simpl.
  rewrite insert_app_r_alt by lia. now rewrite Nat.sub_diag.
Qed.

(** [request_lock] locks and returns an available record of the table when
    there is one.  When there is none it throws at the cap, with the cursor
    moved forward by one step; below the cap it appends a locked record and
    returns its index, unless the table already holds [INT_MAX] + 1 records:
    the index of the new record is then no [int], the value returned by the
    poll is negative and the access to the record is outside the table. *)
Lemma request_lock_cases b sz :
  1 <= size b <= int_max + 1 ->
  (exists id r,
      request_lock b sz =
        Ret id (set_blob_locks (set_blob_index b id)
                  (<[Z.to_nat id := set_locked true r]> (m_blob_locks b))) /\
      vec_at (m_blob_locks b) id = Some r /\ available b r = true)
  \/ (Forall (fun r => available b r = false) (m_blob_locks b) /\
      size b < to_size_t (m_max_blobs b) /\
      size b <= int_max /\
      request_lock b sz =
        Ret (size b)
          (set_blob_locks (advanced b)
             (m_blob_locks b ++ [set_locked true fresh_record])))
  \/ (Forall (fun r => available b r = false) (m_blob_locks b) /\
      size b < to_size_t (m_max_blobs b) /\
      size b = int_max + 1 /\
      request_lock b sz = Undefined)
  \/ (Forall (fun r => available b r = false) (m_blob_locks b) /\
      to_size_t (m_max_blobs b) <= size b /\
      request_lock b sz = Throw BlobLimitErr (advanced b)).
Proof.
  intros Hsize. unfold request_lock.
  destruct (get_next_available_blob_spec b Hsize)
    as [(id & r & Hg & Hat & Hav) | [Hall Hg]]; rewrite Hg.
  - left. exists id, r.
    pose proof (vec_at_in_range _ _ _ Hat) as Hid.
    destruct (id =? -1) eqn:E; [apply Z.eqb_eq in E; lia|].
    unfold vec_update. cbn [m_blob_locks set_blob_index]. rewrite Hat. auto.
  - right. destruct (size b >=? to_size_t (m_max_blobs b)) eqn:E.
    + rewrite Z.geb_leb, Z.leb_le in E. right. right. auto.
    + rewrite Z.geb_leb, Z.leb_gt in E.
      destruct (Z_le_gt_dec (size b) int_max) as [Hle | Hgt].
      * left. rewrite wrap_int_small
          by (unfold in_int, int_min, int_max in *; lia).
        destruct (size b =? -1) eqn:E'; [apply Z.eqb_eq in E'; lia|].
        cbn [m_blob_locks set_blob_locks]. unfold size at 1.
        rewrite vec_update_last. auto.
      * right. left. assert (Hs : size b = int_max + 1) by lia.
        replace (wrap_int (size b)) with int_min
          by (rewrite Hs; symmetry; apply wrap_int_past_max).
        unfold int_min. simpl (_ =? _).
        unfold vec_update. rewrite vec_at_negative by lia. auto.
Qed.


(** ** Construction *)

Lemma construct_inr mb n m b :
  construct mb n m = inr b ->
  1 <= n /\
  m_max_blob_size b = wrap_int64 (mb * 1048576) /\
  m_max_blobs b = m /\
  m_blob_locks b = replicate (Z.to_nat n) fresh_record /\
  m_blob_index b = 0.
Proof.
  unfold construct, VW_ASSERT. destruct (n >=? 1) eqn:E; [|discriminate].
  rewrite Z.geb_leb, Z.leb_le in E. intros [= <-].
  cbn [m_max_blob_size m_max_blobs m_blob_locks m_blob_index set_blob_locks].
  rewrite wrap_int64_megabytes. repeat split; try assumption.
  unfold resize. rewrite take_nil, Nat.sub_0_r. simpl.
  induction (Z.to_nat n) as [|k IH]; simpl; [reflexivity | now rewrite IH].
Qed.

Lemma construct_defined mb n m :
  1 <= n -> exists b, construct mb n m = inr b.
Proof.
  intros H. unfold construct, VW_ASSERT. destruct (n >=? 1) eqn:E; [eauto|].
  rewrite Z.geb_leb, Z.leb_gt in E. lia.
Qed.

Lemma construct_size mb n m b :
  construct mb n m = inr b -> size b = n.
Proof.
  intros H. apply construct_inr in H as (Hn & _ & _ & Hl & _).
  unfold size. rewrite Hl, length_replicate. lia.
Qed.

Lemma construct_usable mb n m b :
  in_int n -> in_int m -> construct mb n m = inr b ->
  usable b /\ search_ok b.
Proof.
  intros Hn Hm H. pose proof (construct_size _ _ _ _ H) as Hs.
  apply construct_inr in H as (H1 & Hcap & Hmax & _ & Hi).
  unfold usable, int_sized, search_ok. rewrite Hs, Hmax, Hi, Hcap.
  pose proof (wrap_int64_range (mb * 1048576)) as Hc.
  destruct Hn as [_ Hn]. repeat split; try apply Hm; try apply Hc; lia.
Qed.

(** On these states the [unsigned] that [num_blobs] returns is the number
    of records. *)
Lemma num_blobs_size b : usable b -> num_blobs b = size b.
Proof.
  intros (H1 & Hs & _). unfold num_blobs, to_unsigned, int_max in *.
  apply Z.mod_small. lia.
Qed.

(** ** What a call preserves *)

Lemma vec_at_nil i : vec_at [] i = None.
Proof. unfold vec_at. now destruct (0 <=? i). Qed.

Lemma request_lock_empty b sz : size b = 0 -> request_lock b sz = Undefined.
Proof.
  unfold size. intros H.
  assert (Hv : m_blob_locks b = []) by (destruct (m_blob_locks b); simpl in H; [reflexivity | lia]).
  unfold request_lock, get_next_available_blob.
  cbn [m_blob_locks m_blob_index set_blob_index].
  now rewrite Hv, vec_at_nil.
Qed.

(** A call that returns was made on a table with at least one record. *)
Lemma request_lock_nonempty b sz :
  state_of (request_lock b sz) <> None -> 1 <= size b.
Proof.
  intros H. destruct (Z_lt_le_dec (size b) 1) as [Hlt|]; [|assumption].
  rewrite request_lock_empty in H; [now contradiction H|].
  unfold size in *. lia.
Qed.

Lemma request_lock_preserves b sz b' :
  usable b -> state_of (request_lock b sz) = Some b' ->
  usable b' /\ search_ok b' /\
  m_max_blob_size b' = m_max_blob_size b /\
  m_max_blobs b' = m_max_blobs b /\
  size b <= size b' /\
  (0 <= m_max_blobs b -> size b' <= Z.max (size b) (m_max_blobs b)).
Proof.
  intros (H1 & Hs & Hm & Hc & Hnn) H.
  pose proof (increment_blob_index_range b (conj H1 Hs) (m_blob_index b)) as Hinc.
  pose proof (to_size_t_cap _ Hm) as [Hcap _]. pose proof Hm as [Hmlo Hmhi].
  destruct (request_lock_cases b sz (conj H1 Hs))
    as [(id & r & Hr & Hat & _)
       | [(_ & Hlt & Hle & Hr) | [(_ & _ & _ & Hr) | (_ & Hge & Hr)]]];
    rewrite Hr in H; simpl in H; try discriminate; injection H as <-;
    unfold usable, int_sized, search_ok, size in *;
    cbn [m_blob_locks m_blob_index m_max_blobs m_max_blob_size
           set_blob_locks set_blob_index advanced].
  - apply vec_at_in_range in Hat. rewrite length_insert.
    repeat split; try apply Hm; try apply Hc; lia.
  - rewrite length_app. simpl.
    repeat split; try apply Hm; try apply Hc; lia.
  - repeat split; try apply Hm; try apply Hc; lia.
Qed.

Lemma release_lock_inv b id off r :
  release_lock b id off = r ->
  match r with
  | Ret _ b' =>
      in_range b id /\
      b' = set_blob_locks b
             (<[Z.to_nat id := mkBlobRecord false off]> (m_blob_locks b))
  | Throw _ _ => False
  | Undefined => ~ in_range b id
  | OutOfFuel => False
  end.
Proof.
  intros <-. unfold release_lock, vec_update, in_range, size.
  destruct (vec_at (m_blob_locks b) id) as [r|] eqn:Hat.
  - pose proof (vec_at_in_range _ _ _ Hat) as Hid.
    apply vec_at_Some in Hat as [H0 Hat].
    assert (Hlt : (Z.to_nat id < length (m_blob_locks b))%nat) by lia.
    unfold vec_at. destruct (0 <=? id) eqn:E; [|apply Z.leb_gt in E; lia].
    rewrite list_lookup_insert_eq by exact Hlt.
    split; [exact Hid|]. f_equal.
    rewrite list_insert_insert_eq. reflexivity.
  - intros Hid. destruct (vec_at_defined (m_blob_locks b) id Hid) as [r Hr].
    congruence.
Qed.

Lemma release_lock_defined b id off :
  in_range b id ->
  release_lock b id off =
    Ret tt (set_blob_locks b
              (<[Z.to_nat id := mkBlobRecord false off]> (m_blob_locks b))).
Proof.
  intros Hid. pose proof (release_lock_inv b id off _ eq_refl) as H.
  destruct (release_lock b id off) as [[] b'| | |]; try contradiction.
  now destruct H as [_ ->].
Qed.

Lemma release_lock_preserves b id off b' :
  state_of (release_lock b id off) = Some b' ->
  in_range b id /\
  b' = set_blob_locks b
         (<[Z.to_nat id := mkBlobRecord false off]> (m_blob_locks b)) /\
  size b' = size b.
Proof.
  intros H. pose proof (release_lock_inv b id off _ eq_refl) as Hr.
  destruct (release_lock b id off) as [[] b''| | |]; simpl in H;
    try discriminate; try contradiction.
  injection H as <-. destruct Hr as [Hid ->]. repeat split; try apply Hid.
  unfold size. cbn [m_blob_locks set_blob_locks]. now rewrite length_insert.
Qed.

Lemma step_preserves b c b' :
  usable b -> search_ok b -> step b c = Some b' ->
  usable b' /\ search_ok b' /\
  m_max_blob_size b' = m_max_blob_size b /\
  m_max_blobs b' = m_max_blobs b /\
  size b <= size b' /\
  (0 <= m_max_blobs b -> size b' <= Z.max (size b) (m_max_blobs b)).
Proof.
  intros Hu Hs H. destruct c as [sz | id off]; simpl in H.
  - exact (request_lock_preserves b sz b' Hu H).
  - apply release_lock_preserves in H as (Hid & -> & Hsz).
    destruct Hu as (H1 & Hsz1 & Hm & Hc & Hnn).
    unfold usable, int_sized, search_ok in *. rewrite Hsz.
    cbn [m_blob_index m_max_blobs m_max_blob_size set_blob_locks].
    repeat split; try apply Hm; try apply Hc; lia.
Qed.

Lemma reachable_usable b : reachable b -> usable b /\ search_ok b.
Proof.
  induction 1 as [mb n m b _ Hn Hm Hc | b c b' _ [IHu IHs] Hstep].
  - exact (construct_usable mb n m b Hn Hm Hc).
  - destruct (step_preserves b c b' IHu IHs Hstep) as (? & ? & _). auto.
Qed.

(** ** Reading the table after an update *)

Lemma vec_at_insert_eq v id r r0 :
  vec_at v id = Some r0 -> vec_at (<[Z.to_nat id := r]> v) id = Some r.
Proof.
  intros H. apply vec_at_Some in H as [H0 H]. apply vec_at_Some.
  split; [exact H0|]. apply list_lookup_insert_eq. now apply lookup_lt_Some in H.
Qed.

Lemma vec_at_insert_ne v id j r :
  0 <= id -> j <> id -> vec_at (<[Z.to_nat id := r]> v) j = vec_at v j.
Proof.
  intros H0 Hne. unfold vec_at. destruct (0 <=? j) eqn:E; [|reflexivity].
  apply Z.leb_le in E. apply list_lookup_insert_ne. lia.
Qed.

Lemma vec_at_app_l v w i r :
  vec_at v i = Some r -> vec_at (v ++ w) i = Some r.
Proof.
  intros H. apply vec_at_Some in H as [H0 H]. apply vec_at_Some.
  split; [exact H0|]. rewrite lookup_app_l; [exact H|]. now apply lookup_lt_Some in H.
Qed.

Lemma is_locked_Some b id l :
  is_locked b id = Some l <->
  exists r, vec_at (m_blob_locks b) id = Some r /\ locked r = l.
Proof.
  unfold is_locked. destruct (vec_at (m_blob_locks b) id) as [r|]; simpl.
  - split; [intros [= <-]; eauto | intros (r' & [= <-] & <-); reflexivity].
  - split; [discriminate | intros (r' & H & _); discriminate].
Qed.

(** ** Locks across calls *)

Section Locked.

Variable id : Z.

Lemma request_lock_locks b sz b' :
  usable b -> request_lock b sz = Ret id b' -> is_locked b' id = Some true.
Proof.
  intros (H1 & Hs & _) H.
  destruct (request_lock_cases b sz (conj H1 Hs))
    as [(id' & r & Hr & Hat & _) | [(_ & _ & _ & Hr) | [(_ & _ & _ & Hr) | (_ & _ & Hr)]]];
    rewrite Hr in H; try discriminate; injection H as <- <-;
    apply is_locked_Some; cbn [m_blob_locks set_blob_locks].
  - exists (set_locked true r). split; [|reflexivity].
    now apply vec_at_insert_eq with r.
  - exists (set_locked true fresh_record). split; [|reflexivity].
    unfold size. rewrite vec_at_of_nat, lookup_app_r by lia.
    now rewrite Nat.sub_diag.
Qed.

Lemma request_lock_keeps_locked b sz b' :
  usable b -> is_locked b id = Some true ->
  state_of (request_lock b sz) = Some b' -> is_locked b' id = Some true.
Proof.
  intros (H1 & Hs & _) Hl H. apply is_locked_Some in Hl as (r0 & Hat0 & Hl0).
  destruct (request_lock_cases b sz (conj H1 Hs))
    as [(id' & r & Hr & Hat & _) | [(_ & _ & _ & Hr) | [(_ & _ & _ & Hr) | (_ & _ & Hr)]]];
    rewrite Hr in H; simpl in H; try discriminate; injection H as <-;
    apply is_locked_Some; cbn [m_blob_locks set_blob_locks set_blob_index advanced].
  - destruct (Z.eq_dec id id') as [<- | Hne].
    + exists (set_locked true r). split; [|reflexivity].
      now apply vec_at_insert_eq with r.
    + exists r0. split; [|exact Hl0].
      rewrite vec_at_insert_ne; [exact Hat0 | | exact Hne].
      apply vec_at_in_range in Hat. lia.
  - exists r0. split; [|exact Hl0]. now apply vec_at_app_l.
  - exists r0. auto.
Qed.

Lemma request_lock_avoids_locked b sz id' b' :
  usable b -> is_locked b id = Some true ->
  request_lock b sz = Ret id' b' -> id' <> id.
Proof.
  intros (H1 & Hs & _) Hl H. apply is_locked_Some in Hl as (r0 & Hat0 & Hl0).
  destruct (request_lock_cases b sz (conj H1 Hs))
    as [(id'' & r & Hr & Hat & Hav) | [(_ & _ & _ & Hr) | [(_ & _ & _ & Hr) | (_ & _ & Hr)]]];
    rewrite Hr in H; try discriminate; injection H as <- <-.
  - intros ->. rewrite Hat0 in Hat. injection Hat as ->.
    unfold available in Hav. rewrite Hl0 in Hav. discriminate.
  - apply vec_at_in_range in Hat0. unfold size. lia.
Qed.

Lemma release_lock_keeps_locked b id' off b' :
  is_locked b id = Some true -> releases id (CallRelease id' off) = false ->
  state_of (release_lock b id' off) = Some b' -> is_locked b' id = Some true.
Proof.
  intros Hl Hne H. simpl in Hne. apply Z.eqb_neq in Hne.
  apply release_lock_preserves in H as ([H0 _] & -> & _).
  unfold is_locked in *. cbn [m_blob_locks set_blob_locks].
  rewrite vec_at_insert_ne by (try exact H0; congruence). exact Hl.
Qed.

Lemma run_keeps_locked cs :
  forall b b',
    usable b -> search_ok b -> is_locked b id = Some true ->
    Forall (fun c => releases id c = false) cs ->
    run b cs = Some b' ->
    usable b' /\ is_locked b' id = Some true.
Proof.
  induction cs as [|c cs IH]; intros b b' Hu Hs Hl Hcs Hrun; simpl in Hrun.
  - injection Hrun as <-. auto.
  - destruct (step b c) as [b1|] eqn:Hstep; [|discriminate].
    apply Forall_cons in Hcs as [Hc Hcs].
    destruct (step_preserves b c b1 Hu Hs Hstep) as (Hu1 & Hs1 & _).
    apply (IH b1 b' Hu1 Hs1); try assumption.
    destruct c as [sz | id' off]; simpl in Hstep.
    + exact (request_lock_keeps_locked b sz b1 Hu Hl Hstep).
    + exact (release_lock_keeps_locked b id' off b1 Hl Hc Hstep).
Qed.

End Locked.

(** ** Mutual exclusion *)

(** C1.  In every state an allocator can reach, a segment id returned by
    [request_lock] is locked on return; it stays locked through every
    sequence of calls that does not release it, and at the end of such a
    sequence no [request_lock] returns it. *)
Theorem granted_lock_is_exclusive b sz id b1 :
  reachable b ->
  request_lock b sz = Ret id b1 ->
  is_locked b1 id = Some true /\
  forall cs b2,
    Forall (fun c => releases id c = false) cs ->
    run b1 cs = Some b2 ->
    is_locked b2 id = Some true /\
    forall sz' id' b3, request_lock b2 sz' = Ret id' b3 -> id' <> id.
Proof.
  intros Hreach Hreq. destruct (reachable_usable b Hreach) as [Hu Hs].
  assert (Hstep : state_of (request_lock b sz) = Some b1) by now rewrite Hreq.
  destruct (request_lock_preserves b sz b1 Hu Hstep) as (Hu1 & Hs1 & _).
  pose proof (request_lock_locks id b sz b1 Hu Hreq) as Hl1.
  split; [exact Hl1|]. intros cs b2 Hcs Hrun.
  destruct (run_keeps_locked id cs b1 b2 Hu1 Hs1 Hl1 Hcs Hrun) as [Hu2 Hl2].
  split; [exact Hl2|]. intros sz' id' b3 Hreq'.
  exact (request_lock_avoids_locked id b2 sz' id' b3 Hu2 Hl2 Hreq').
Qed.

(** ** Counting the available records *)

Section Counting.

Variable b : BlobManager.

Lemma count_available_le v : (count_available b v <= length v)%nat.
Proof.
  unfold count_available. induction v as [|r v IH]; simpl; [lia|].
  destruct (available b r); simpl; lia.
Qed.

Lemma count_available_zero v :
  count_available b v = 0%nat <-> Forall (fun r => available b r = false) v.
Proof.
  unfold count_available. induction v as [|r v IH]; simpl.
  - split; [constructor | reflexivity].
  - destruct (available b r) eqn:E; simpl.
    + split; [discriminate | intros H; inversion H; congruence].
    + rewrite IH. split; [now constructor | intros H; now inversion H].
Qed.

(** Locking an available record takes one off the count. *)
Lemma count_available_lock v :
  forall k r,
    v !! k = Some r -> available b r = true ->
    S (count_available b (<[k := set_locked true r]> v)) = count_available b v.
Proof.
  unfold count_available.
  induction v as [|r0 v IH]; intros k r Hk Hav; [discriminate|].
  destruct k as [|k]; simpl in *.
  - injection Hk as ->. rewrite Hav. reflexivity.
  - destruct (available b r0); simpl; now rewrite <- (IH k r Hk Hav).
Qed.

End Counting.

(** At the cap, a call either throws, and then no record is available, or
    locks a record of the table and lowers the count of available records
    by one. *)
Lemma request_lock_at_cap b sz :
  usable b -> to_size_t (m_max_blobs b) <= size b ->
  exists b',
    state_of (request_lock b sz) = Some b' /\
    usable b' /\ size b' = size b /\
    m_max_blobs b' = m_max_blobs b /\
    m_max_blob_size b' = m_max_blob_size b /\
    (count_available b' (m_blob_locks b')
     <= count_available b (m_blob_locks b) - 1)%nat.
Proof.
  intros Hu Hcap. pose proof Hu as (H1 & Hs & Hm).
  destruct (request_lock_cases b sz (conj H1 Hs))
    as [(id & r & Hr & Hat & Hav)
       | [(_ & Hlt & _) | [(_ & Hlt & _) | (Hall & _ & Hr)]]];
    [| lia | lia |].
  - assert (Hst : state_of (request_lock b sz) = Some
                    (set_blob_locks (set_blob_index b id)
                       (<[Z.to_nat id:=set_locked true r]> (m_blob_locks b))))
      by now rewrite Hr.
    destruct (request_lock_preserves b sz _ Hu Hst) as (Hu' & _).
    eexists. split; [exact Hst|]. split; [exact Hu'|].
    apply vec_at_Some in Hat as [_ Hat].
    pose proof (count_available_lock b _ _ _ Hat Hav) as Hcount.
    unfold size in *.
    cbn [m_blob_locks m_blob_index m_max_blobs m_max_blob_size
           set_blob_locks set_blob_index].
    rewrite length_insert. repeat split.
    unfold count_available in *.
    change (available (set_blob_locks (set_blob_index b id)
                         (<[Z.to_nat id:=set_locked true r]> (m_blob_locks b))))
      with (available b).
    lia.
  - assert (Hst : state_of (request_lock b sz) = Some (advanced b))
      by now rewrite Hr.
    destruct (request_lock_preserves b sz _ Hu Hst) as (Hu' & _).
    eexists. split; [exact Hst|]. split; [exact Hu'|].
    apply count_available_zero in Hall.
    repeat split.
    unfold count_available in *.
    cbn [m_blob_locks set_blob_index advanced].
    change (available (advanced b)) with (available b). lia.
Qed.

(** Requests made at the cap, none released: each takes one available
    record away while there is one. *)
Lemma requests_at_cap sizes :
  forall b,
    usable b -> to_size_t (m_max_blobs b) <= size b ->
    exists b',
      run b (map CallRequest sizes) = Some b' /\
      usable b' /\ size b' = size b /\
      m_max_blobs b' = m_max_blobs b /\
      (count_available b' (m_blob_locks b')
       <= count_available b (m_blob_locks b) - length sizes)%nat.
Proof.
  induction sizes as [|sz sizes IH]; intros b Hu Hcap; simpl.
  - exists b. repeat split; try apply Hu. lia.
  - destruct (request_lock_at_cap b sz Hu Hcap)
      as (b1 & Hstep & Hu1 & Hsz1 & Hm1 & _ & Hc1).
    rewrite Hstep.
    destruct (IH b1 Hu1 ltac:(rewrite Hm1, Hsz1; exact Hcap))
      as (b' & Hrun & Hu' & Hsz' & Hm' & Hc').
    exists b'. repeat split; try apply Hu'; try congruence. lia.
Qed.

(** Records that fail the test are locked or full. *)
Lemma Forall_unavailable b v :
  in_int64 (m_max_blob_size b) ->
  Forall (fun r => available b r = false) v -> Forall (locked_or_full b) v.
Proof.
  intros Hc H. eapply Forall_impl; [exact H|].
  intros r. now apply unavailable_locked_or_full.
Qed.

(** For a capacity that is not negative, the records that fail the test are
    the locked or full ones. *)
Lemma Forall_locked_or_full b v :
  0 <= m_max_blob_size b -> in_int64 (m_max_blob_size b) ->
  Forall (locked_or_full b) v <-> Forall (fun r => available b r = false) v.
Proof.
  intros H0 Hc. apply Forall_iff. intros r. symmetry. now apply available_false.
Qed.

(** The outcome of [request_lock] read off the table: it throws exactly
    when no record is available and the cap is reached. *)
Lemma request_lock_throws_iff b sz :
  usable b ->
  (exists b', request_lock b sz = Throw BlobLimitErr b') <->
  Forall (fun r => available b r = false) (m_blob_locks b) /\
  to_size_t (m_max_blobs b) <= size b.
Proof.
  intros (H1 & Hs & _).
  destruct (request_lock_cases b sz (conj H1 Hs))
    as [(id & r & Hr & Hat & Hav)
       | [(_ & Hlt & _ & Hr) | [(_ & Hlt & _ & Hr) | (Hall & Hge & Hr)]]];
    rewrite Hr.
  - split; [intros [b' H]; discriminate|].
    intros [Hall _]. rewrite Forall_vec_at in Hall.
    specialize (Hall id r Hat). congruence.
  - split; [intros [b' H]; discriminate | lia].
  - split; [intros [b' H]; discriminate | lia].
  - split; [auto | eauto].
Qed.

(** ** Capacity *)

(** C2, as it holds.  In every state an allocator can reach whose cap and
    capacity are not negative, [request_lock] throws [BlobLimitErr] if and
    only if every record is locked or full and the number of records has
    reached the cap.  An allocator built with [n] records and the cap [n]
    throws on the request that follows any [n] requests made without a
    release. *)
Theorem capacity_exceeded_iff :
  (forall b sz,
      reachable b ->
      0 <= m_max_blobs b ->
      0 <= m_max_blob_size b ->
      (exists b', request_lock b sz = Throw BlobLimitErr b') <->
      Forall (locked_or_full b) (m_blob_locks b) /\ m_max_blobs b <= size b)
  /\ (forall mb n sizes sz b0,
         in_int n ->
         construct mb n n = inr b0 ->
         length sizes = Z.to_nat n ->
         exists b b',
           run b0 (map CallRequest sizes) = Some b /\
           request_lock b sz = Throw BlobLimitErr b').
Proof.
  split.
  - intros b sz Hreach Hcap Hcapacity.
    destruct (reachable_usable b Hreach) as [Hu _].
    pose proof Hu as (_ & _ & Hm & Hc & _).
    rewrite (request_lock_throws_iff b sz Hu).
    rewrite (Forall_locked_or_full b _ Hcapacity Hc).
    now rewrite (proj1 (to_size_t_cap _ Hm) Hcap).
  - intros mb n sizes sz b0 Hn Hc Hlen.
    destruct (construct_usable mb n n b0 Hn Hn Hc) as [Hu _].
    pose proof (construct_size _ _ _ _ Hc) as Hsz.
    pose proof (construct_inr _ _ _ _ Hc) as (H1 & _ & Hmax & _).
    assert (Hcap : to_size_t (m_max_blobs b0) <= size b0).
    { rewrite Hmax, Hsz. rewrite (proj1 (to_size_t_cap _ Hn)) by lia. lia. }
    destruct (requests_at_cap sizes b0 Hu Hcap)
      as (b & Hrun & Hu' & Hsz' & Hm' & Hcount).
    destruct (proj2 (request_lock_throws_iff b sz Hu')) as [b' Hthrow].
    { split; [|rewrite Hm', Hsz'; exact Hcap].
      apply count_available_zero.
      pose proof (count_available_le b0 (m_blob_locks b0)) as Hle.
      unfold size in Hsz. lia. }
    exists b, b'. auto.
Qed.

(** C2 as stated, for every reachable state, fails in two ways.  With a
    negative capacity the availability test, made in [uint64], lets an
    unlocked record through although its offset is not below the capacity:
    the request is granted where the claim has it throw.  With a negative
    cap the comparison with the number of records, made in [size_t], never
    succeeds: the table grows where the claim has the request throw. *)
Lemma capacity_exceeded_iff_fails :
  ~ (forall b sz,
        reachable b ->
        (exists b', request_lock b sz = Throw BlobLimitErr b') <->
        Forall (locked_or_full b) (m_blob_locks b) /\ m_max_blobs b <= size b)
  /\ (reachable negative_cap_locked /\
      Forall (locked_or_full negative_cap_locked)
        (m_blob_locks negative_cap_locked) /\
      m_max_blobs negative_cap_locked <= size negative_cap_locked /\
      request_lock negative_cap_locked 0
      = Ret 1 (mkBlobManager 1048576 (-1)
                 [mkBlobRecord true 0; mkBlobRecord true 0] 0)).
Proof.
  split.
  - intros H.
    assert (Hreach : reachable negative_capacity_blob).
    { apply (reachable_construct (-1) 1 1);
        [ unfold in_int64, int64_min, int64_max; lia
        | unfold in_int, int_min, int_max; lia
        | unfold in_int, int_min, int_max; lia
        | reflexivity ]. }
    destruct (proj2 (H negative_capacity_blob 0 Hreach)) as [b' Hthrow].
    + split; [|vm_compute; discriminate].
      constructor; [|constructor]. right. vm_compute. discriminate.
    + vm_compute in Hthrow. discriminate.
  - split.
    + apply (reachable_step (mkBlobManager 1048576 (-1) [fresh_record] 0)
               (CallRequest 0)); [|reflexivity].
      apply (reachable_construct 1 1 (-1));
        [ unfold in_int64, int64_min, int64_max; lia
        | unfold in_int, int_min, int_max; lia
        | unfold in_int, int_min, int_max; lia
        | reflexivity ].
    + split; [constructor; [left; reflexivity | constructor]|].
      split; [vm_compute; discriminate | reflexivity].
Qed.

(** ** Growth *)

Lemma vec_at_singleton r0 id r :
  vec_at [r0] id = Some r -> id = 0 /\ r = r0.
Proof.
  intros H. pose proof (vec_at_in_range _ _ _ H) as Hid. simpl in Hid.
  assert (id = 0) as -> by lia. now injection H as <-.
Qed.

(** With no available record and room below the cap, on a table of at most
    [INT_MAX] records, the call appends a record with offset 0, locks it and
    returns its index, the former number of records. *)
Lemma request_lock_grows b sz :
  usable b ->
  Forall (fun r => available b r = false) (m_blob_locks b) ->
  size b < to_size_t (m_max_blobs b) ->
  size b <= int_max ->
  request_lock b sz =
    Ret (size b)
      (set_blob_locks (advanced b) (m_blob_locks b ++ [mkBlobRecord true 0])).
Proof.
  intros (H1 & Hs & _) Hall Hlt Hle.
  destruct (request_lock_cases b sz (conj H1 Hs))
    as [(id & r & _ & Hat & Hav)
       | [(_ & _ & _ & Hr) | [(_ & _ & Heq & _) | (_ & Hge & _)]]].
  - rewrite Forall_vec_at in Hall. specialize (Hall id r Hat). congruence.
  - exact Hr.
  - lia.
  - lia.
Qed.

(** The same with the cap and the capacity read as integers, which they are
    when the capacity is not negative and the cap is above the number of
    records. *)
Lemma request_lock_grows_below_cap b sz :
  usable b ->
  0 <= m_max_blob_size b ->
  Forall (locked_or_full b) (m_blob_locks b) ->
  size b < m_max_blobs b ->
  request_lock b sz =
    Ret (size b)
      (set_blob_locks (advanced b) (m_blob_locks b ++ [mkBlobRecord true 0])).
Proof.
  intros Hu H0 Hall Hlt. pose proof Hu as (H1 & Hs & Hm & Hc & Hnn).
  pose proof (proj1 (to_size_t_cap _ Hm) ltac:(lia)) as Hcap.
  apply request_lock_grows; [exact Hu | | lia | lia].
  now apply (Forall_locked_or_full b _ H0 Hc).
Qed.

(** The scenario of C3 on an allocator with one record, the cap 3 and a
    positive capacity. *)
Lemma growth_scenario b0 sz1 sz2 :
  m_blob_locks b0 = [fresh_record] ->
  m_max_blobs b0 = 3 ->
  in_int64 (m_max_blob_size b0) ->
  0 < m_max_blob_size b0 ->
  exists b1 b2 b3,
    request_lock b0 sz1 = Ret 0 b1 /\
    release_lock b1 0 (m_max_blob_size b0) = Ret tt b2 /\
    size b2 = 1 /\
    request_lock b2 sz2 = Ret 1 b3 /\
    size b3 = 2.
Proof.
  intros Hv Hmax Hc Hpos.
  assert (Hint : in_int 3) by (unfold in_int, int_min, int_max; lia).
  assert (Hu0 : usable b0).
  { unfold usable, int_sized, size. rewrite Hv, Hmax. simpl.
    unfold int_max. repeat split; try apply Hint; try apply Hc; lia. }
  pose proof Hu0 as (H1 & Hs & Hm).
  destruct (request_lock_cases b0 sz1 (conj H1 Hs))
    as [(id & r & Hr & Hat & _) | [(Hall & _) | [(Hall & _) | (Hall & _)]]].
  2,3,4: exfalso; rewrite Hv in Hall; apply Forall_cons in Hall as [Hall _];
       assert (Hav : available b0 fresh_record = true)
         by (apply available_below; [exact Hc | reflexivity | exact Hpos]);
       congruence.
  rewrite Hv in Hat. apply vec_at_singleton in Hat as [-> ->].
  rewrite Hv in Hr. simpl in Hr.
  eexists. eexists. eexists. split; [exact Hr|].
  split.
  { apply release_lock_defined. unfold in_range, size. simpl. lia. }
  cbn [m_blob_locks set_blob_locks]. simpl (<[_ := _]> _).
  split; [reflexivity|].
  match goal with |- request_lock ?b _ = _ /\ _ => set (b2 := b) end.
  assert (Hu2 : usable b2).
  { unfold usable, int_sized, size. subst b2. simpl. rewrite Hmax.
    unfold int_max. repeat split; try apply Hint; try apply Hc; lia. }
  rewrite (request_lock_grows_below_cap b2 sz2 Hu2).
  - split; reflexivity.
  - subst b2. simpl. lia.
  - subst b2. simpl. constructor; [|constructor].
    right. simpl. lia.
  - subst b2. unfold size. simpl. lia.
Qed.

(** C3, as it holds.  On an allocator built with one record, the cap 3 and
    a positive capacity S, a request, the release of the granted segment at
    offset S and a second request grant first the record 0 and then a new
    record 1, the number of records before the second request, and leave two
    records.  In every reachable state with a capacity that is not negative,
    every record locked or full and fewer records than the cap, a request
    appends a record with offset 0, returns its index and leaves it
    locked. *)
Theorem growth_when_full :
  (forall mb b0 sz1 sz2,
      construct mb 1 3 = inr b0 ->
      0 < max_blob_size b0 ->
      exists id1 b1 b2 id2 b3,
        request_lock b0 sz1 = Ret id1 b1 /\
        release_lock b1 id1 (max_blob_size b0) = Ret tt b2 /\
        request_lock b2 sz2 = Ret id2 b3 /\
        id2 <> id1 /\ id2 = size b2 /\ size b2 = 1 /\ size b3 = 2)
  /\ (forall b sz,
         reachable b ->
         0 <= max_blob_size b ->
         Forall (locked_or_full b) (m_blob_locks b) ->
         size b < m_max_blobs b ->
         exists b',
           request_lock b sz = Ret (size b) b' /\
           m_blob_locks b' = m_blob_locks b ++ [mkBlobRecord true 0] /\
           is_locked b' (size b) = Some true).
Proof.
  split.
  - intros mb b0 sz1 sz2 Hc Hpos.
    apply construct_inr in Hc as (_ & Hcap & Hmax & Hv & _).
    assert (Hc64 : in_int64 (m_max_blob_size b0))
      by (rewrite Hcap; apply wrap_int64_range).
    destruct (growth_scenario b0 sz1 sz2 Hv Hmax Hc64 Hpos)
      as (b1 & b2 & b3 & Hr1 & Hrel & Hs2 & Hr2 & Hs3).
    exists 0, b1, b2, 1, b3. rewrite Hs2. repeat split; auto; lia.
  - intros b sz Hreach H0 Hall Hlt.
    destruct (reachable_usable b Hreach) as [Hu _].
    eexists. split; [exact (request_lock_grows_below_cap b sz Hu H0 Hall Hlt)|].
    split; [reflexivity|].
    unfold is_locked, size. cbn [m_blob_locks set_blob_locks].
    rewrite vec_at_of_nat, lookup_app_r by lia. now rewrite Nat.sub_diag.
Qed.

(** C3 as stated fails in two ways.  The scenario, for every capacity,
    fails at the capacity 0: the only record is full from the start, so the
    first request already appends a record and the second one leaves three.
    The general rule, for every capacity, fails at a negative capacity: the
    only record has an offset that is not below the capacity, the cap is not
    reached, and yet the record is granted, as the availability test is made
    in [uint64]. *)
Lemma growth_as_stated_fails :
  ~ (forall mb b0 sz1 sz2,
        construct mb 1 3 = inr b0 ->
        exists id1 b1 b2 id2 b3,
          request_lock b0 sz1 = Ret id1 b1 /\
          release_lock b1 id1 (max_blob_size b0) = Ret tt b2 /\
          request_lock b2 sz2 = Ret id2 b3 /\
          id2 <> id1 /\ id2 = size b2 /\ size b2 = 1 /\ size b3 = 2)
  /\ ~ (forall b sz,
          reachable b ->
          Forall (locked_or_full b) (m_blob_locks b) ->
          size b < m_max_blobs b ->
          exists b',
            request_lock b sz = Ret (size b) b' /\
            m_blob_locks b' = m_blob_locks b ++ [mkBlobRecord true 0] /\
            is_locked b' (size b) = Some true).
Proof.
  split.
  - intros H.
    destruct (H 0 _ 0 0 eq_refl)
      as (id1 & b1 & b2 & id2 & b3 & H1 & H2 & H3 & _ & _ & Hsize & _).
    vm_compute in H1. injection H1 as <- <-.
    vm_compute in H2. injection H2 as <-.
    vm_compute in Hsize. discriminate.
  - intros H.
    assert (Hreach : reachable negative_capacity_room).
    { apply (reachable_construct (-1) 1 3);
        [ unfold in_int64, int64_min, int64_max; lia
        | unfold in_int, int_min, int_max; lia
        | unfold in_int, int_min, int_max; lia
        | reflexivity ]. }
    destruct (H negative_capacity_room 0 Hreach) as (b' & Hr & _).
    + constructor; [|constructor]. right. vm_compute. discriminate.
    + vm_compute. reflexivity.
    + vm_compute in Hr. discriminate.
Qed.

(** ** Round robin *)

(** When the record next to the cursor is available, the call returns it
    without a scan. *)
Lemma request_lock_immediate b sz r :
  vec_at (m_blob_locks b) (increment_blob_index b (m_blob_index b)) = Some r ->
  available b r = true ->
  request_lock b sz =
    Ret (increment_blob_index b (m_blob_index b))
      (set_blob_locks (advanced b)
         (<[Z.to_nat (increment_blob_index b (m_blob_index b))
            := set_locked true r]> (m_blob_locks b))).
Proof.
  intros Hat Hav. pose proof (vec_at_in_range _ _ _ Hat) as Hid.
  unfold request_lock, get_next_available_blob.
  cbn [m_blob_locks m_blob_index set_blob_index]. rewrite Hat.
  change (available (set_blob_index b (increment_blob_index b (m_blob_index b))) r)
    with (available b r).
  rewrite Hav.
  destruct (increment_blob_index b (m_blob_index b) =? -1) eqn:E;
    [apply Z.eqb_eq in E; lia|].
  unfold vec_update. cbn [m_blob_locks set_blob_index]. now rewrite Hat.
Qed.

(** One round on a table whose records are all available: the record next
    to the cursor is granted, and after its release below the capacity all
    records are available again. *)
Lemma one_round b sz off :
  usable b -> search_ok b -> all_available b -> off < m_max_blob_size b ->
  exists b1 b2,
    request_lock b sz = Ret ((m_blob_index b + 1) mod size b) b1 /\
    release_lock b1 ((m_blob_index b + 1) mod size b) off = Ret tt b2 /\
    usable b2 /\ search_ok b2 /\ all_available b2 /\
    m_blob_index b2 = (m_blob_index b + 1) mod size b /\
    size b2 = size b /\
    m_max_blob_size b2 = m_max_blob_size b.
Proof.
  intros (H1 & Hs & Hm & Hc & Hnn) Hok Hall Hoff.
  rewrite <- (increment_blob_index_mod b (conj H1 Hs) _ Hok).
  pose proof (increment_blob_index_range b (conj H1 Hs) (m_blob_index b)) as Hinc.
  set (i1 := increment_blob_index b (m_blob_index b)) in *.
  destruct (vec_at_defined (m_blob_locks b) i1 Hinc) as [r Hr].
  assert (Hav : available b r = true).
  { unfold all_available in Hall. rewrite Forall_vec_at in Hall.
    destruct (Hall i1 r Hr) as [Hl Ho]. now apply available_below. }
  eexists. eexists.
  split; [exact (request_lock_immediate b sz r Hr Hav)|].
  split.
  { apply release_lock_defined. unfold in_range, size.
    cbn [m_blob_locks set_blob_locks]. rewrite length_insert. exact Hinc. }
  unfold usable, int_sized, search_ok, all_available, size in *.
  cbn [m_blob_locks m_blob_index m_max_blobs m_max_blob_size
         set_blob_locks set_blob_index advanced].
  rewrite !length_insert. fold i1.
  repeat split; try apply Hm; try apply Hc; try lia.
  rewrite list_insert_insert_eq.
  apply Forall_insert; [exact Hall|]. simpl. auto.
Qed.

Lemma next_mod i k n :
  0 < n -> ((i + 1) mod n + 1 + k) mod n = (i + 1 + (k + 1)) mod n.
Proof.
  intros Hn. rewrite <- Z.add_assoc, Z.add_mod_idemp_l by lia.
  f_equal. lia.
Qed.

Lemma mod_distinct c i j n :
  0 < n -> 0 < j - i < n -> (c + i) mod n <> (c + j) mod n.
Proof.
  intros Hn Hij Heq.
  pose proof (Z.div_mod (c + i) n ltac:(lia)) as Hi.
  pose proof (Z.div_mod (c + j) n ltac:(lia)) as Hj.
  rewrite Heq in Hi.
  assert (Hd : j - i = n * ((c + j) / n - (c + i) / n)) by lia.
  destruct (Z_lt_le_dec 0 ((c + j) / n - (c + i) / n)); nia.
Qed.

Lemma rounds_granted rounds :
  forall b,
    usable b -> search_ok b -> all_available b ->
    Forall (fun p => snd p < m_max_blob_size b) rounds ->
    exists ids b',
      request_release b rounds = Some (ids, b') /\
      length ids = length rounds /\
      forall k, (k < length rounds)%nat ->
                ids !! k = Some ((m_blob_index b + 1 + Z.of_nat k) mod size b).
Proof.
  induction rounds as [|[sz off] rounds IH]; intros b Hu Hok Hall Hoffs.
  - exists [], b. split; [reflexivity|]. split; [reflexivity|].
    simpl. intros k Hk. lia.
  - apply Forall_cons in Hoffs as [Hoff Hoffs]. simpl in Hoff.
    destruct (one_round b sz off Hu Hok Hall Hoff)
      as (b1 & b2 & Hreq & Hrel & Hu2 & Hok2 & Hall2 & Hi2 & Hs2 & Hm2).
    rewrite <- Hm2 in Hoffs.
    destruct (IH b2 Hu2 Hok2 Hall2 Hoffs) as (ids & b' & Hrun & Hlen & Hids).
    exists ((m_blob_index b + 1) mod size b :: ids), b'.
    simpl. rewrite Hreq, Hrel, Hrun.
    split; [reflexivity|]. split; [now rewrite Hlen|].
    intros [|k] Hk; simpl.
    + now rewrite Z.add_0_r.
    + rewrite Hids by lia. rewrite Hi2, Hs2. f_equal.
      rewrite next_mod by (destruct Hu; lia). f_equal. lia.
Qed.

(** C4.  In a reachable state whose records are all unlocked and not full,
    rounds of [request_lock] each followed at once by [release_lock] with an
    offset below the capacity are all granted; the k-th round (from 0) gets
    the record k+1 positions after the cursor, counted modulo the number of
    records, and two rounds less than that number apart get different
    records. *)
Theorem round_robin b rounds :
  reachable b ->
  all_available b ->
  Forall (fun p => snd p < m_max_blob_size b) rounds ->
  exists ids b',
    request_release b rounds = Some (ids, b') /\
    length ids = length rounds /\
    (forall k, (k < length rounds)%nat ->
               ids !! k = Some ((m_blob_index b + 1 + Z.of_nat k) mod size b)) /\
    (forall i j x y,
        (i < j)%nat -> (j < i + length (m_blob_locks b))%nat ->
        ids !! i = Some x -> ids !! j = Some y -> x <> y).
Proof.
  intros Hreach Hall Hoffs. destruct (reachable_usable b Hreach) as [Hu Hok].
  destruct (rounds_granted rounds b Hu Hok Hall Hoffs)
    as (ids & b' & Hrun & Hlen & Hids).
  exists ids, b'. repeat split; try assumption.
  intros i j x y Hij Hj Hx Hy.
  pose proof (lookup_lt_Some _ _ _ Hy) as Hjl. rewrite Hlen in Hjl.
  rewrite Hids in Hx by lia. rewrite Hids in Hy by lia.
  injection Hx as <-. injection Hy as <-.
  rewrite <- !Z.add_assoc.
  apply mod_distinct; unfold size; destruct Hu as [H1 _]; unfold size in H1; lia.
Qed.

(** ** The number of records *)

Lemma run_preserves cs :
  forall b b',
    usable b -> search_ok b -> run b cs = Some b' ->
    usable b' /\ search_ok b' /\
    m_max_blob_size b' = m_max_blob_size b /\
    m_max_blobs b' = m_max_blobs b /\
    size b <= size b' /\
    (0 <= m_max_blobs b -> size b' <= Z.max (size b) (m_max_blobs b)).
Proof.
  induction cs as [|c cs IH]; intros b b' Hu Hok Hrun; simpl in Hrun.
  - injection Hrun as <-. repeat split; try apply Hu; try apply Hok; lia.
  - destruct (step b c) as [b1|] eqn:Hstep; [|discriminate].
    destruct (step_preserves b c b1 Hu Hok Hstep)
      as (Hu1 & Hok1 & Hc1 & Hm1 & Hs1 & Hb1).
    destruct (IH b1 b' Hu1 Hok1 Hrun) as (Hu' & Hok' & Hc' & Hm' & Hs' & Hb').
    rewrite Hm1 in Hb'.
    repeat split; try apply Hu'; try apply Hok'; try congruence; lia.
Qed.

(** C5, as it holds.  On an allocator built from [int] arguments with an
    initial number of records between 1 and the cap, the number of records
    is at most the cap after every sequence of calls. *)
Theorem segment_count_bounded mb n m b0 cs b :
  in_int n -> in_int m ->
  n <= m ->
  construct mb n m = inr b0 ->
  run b0 cs = Some b ->
  m_max_blobs b = m /\ size b <= m_max_blobs b.
Proof.
  intros Hn Hm Hnm Hc Hrun.
  destruct (construct_usable mb n m b0 Hn Hm Hc) as [Hu Hok].
  pose proof (construct_size _ _ _ _ Hc) as Hsz.
  pose proof (construct_inr _ _ _ _ Hc) as (H1 & _ & Hmax & _).
  destruct (run_preserves cs b0 b Hu Hok Hrun) as (_ & _ & _ & Hm' & _ & Hs').
  rewrite Hm', Hmax, Hsz in *. split; lia.
Qed.

(** C5 as stated fails: two initial records under the cap 1. *)
Lemma segment_count_exceeds_cap :
  ~ (forall mb n m b0 cs b,
        1 <= n ->
        construct mb n m = inr b0 ->
        run b0 cs = Some b ->
        size b <= m_max_blobs b).
Proof.
  intros H.
  specialize (H 1 2 1 _ [] _ ltac:(lia) eq_refl eq_refl).
  vm_compute in H. now apply H.
Qed.

(** ** The cursor invariant *)






(** ** Construction *)

(** C7, as it holds.  Construction throws [ArgumentErr] if and only if the
    initial number of records is below 1.  Otherwise it stores the capacity
    that [max_blob_size] returns unchanged, which is the number of megabytes
    times 1048576 whenever that product is an [int64]; it creates exactly
    the initial number of records, all unlocked with offset 0, and puts the
    cursor at 0. *)
Theorem construct_spec mb n m :
  (construct mb n m = inl ArgumentErr <-> n < 1)
  /\ (1 <= n ->
      exists b,
        construct mb n m = inr b /\
        max_blob_size b = m_max_blob_size b /\
        (in_int64 (mb * 1048576) -> max_blob_size b = mb * 1048576) /\
        m_max_blobs b = m /\
        size b = n /\
        Forall (fun r => r = mkBlobRecord false 0) (m_blob_locks b) /\
        m_blob_index b = 0).
Proof.
  split.
  - unfold construct, VW_ASSERT. destruct (n >=? 1) eqn:E.
    + rewrite Z.geb_leb, Z.leb_le in E. split; [discriminate | lia].
    + rewrite Z.geb_leb, Z.leb_gt in E. split; [lia | reflexivity].
  - intros H1. destruct (construct_defined mb n m H1) as [b Hc].
    exists b. pose proof (construct_size _ _ _ _ Hc) as Hsz.
    pose proof (construct_inr _ _ _ _ Hc) as (_ & Hcap & Hmax & Hv & Hi).
    unfold max_blob_size. repeat split; try assumption.
    + intros Hfit. rewrite Hcap. now apply wrap_int64_small.
    + rewrite Hv. apply Forall_forall. intros r Hr.
      now apply elem_of_replicate in Hr as [-> _].
Qed.

(** C7 as stated fails: 2^43 megabytes are 2^63 bytes, which no [int64]
    holds. *)
Lemma construct_capacity_overflow :
  ~ (forall mb n m b,
        construct mb n m = inr b -> max_blob_size b = mb * 1048576).
Proof.
  intros H. specialize (H 8796093022208 1 1 _ eq_refl).
  vm_compute in H. discriminate.
Qed.

(** ** A failed request *)

(** C8.  In every state an allocator can reach, a [request_lock] that
    throws [BlobLimitErr] leaves the table of records as it was, so that the
    lock flag of every segment is what it was before the call. *)
Theorem failed_request_locks_nothing b sz b' :
  reachable b ->
  request_lock b sz = Throw BlobLimitErr b' ->
  m_blob_locks b' = m_blob_locks b /\
  forall id, is_locked b' id = is_locked b id.
Proof.
  intros Hreach H. destruct (reachable_usable b Hreach) as [(H1 & Hs & _) _].
  assert (Hv : m_blob_locks b' = m_blob_locks b).
  { destruct (request_lock_cases b sz (conj H1 Hs))
      as [(id & r & Hr & _) | [(_ & _ & _ & Hr) | [(_ & _ & _ & Hr) | (_ & _ & Hr)]]];
      rewrite Hr in H; try discriminate.
    now injection H as <-. }
  split; [exact Hv|]. intros id. unfold is_locked. now rewrite Hv.
Qed.

(** ** Release *)

(** C9.  For a segment id of the table, [release_lock] returns; the record
    of that id then holds the given offset and is unlocked, and every other
    record, the cursor, the capacity, the cap and the number of records are
    what they were. *)
Theorem release_lock_frame b id off :
  in_range b id ->
  exists b',
    release_lock b id off = Ret tt b' /\
    vec_at (m_blob_locks b') id = Some (mkBlobRecord false off) /\
    (forall j, j <> id ->
               vec_at (m_blob_locks b') j = vec_at (m_blob_locks b) j) /\
    m_blob_index b' = m_blob_index b /\
    m_max_blob_size b' = m_max_blob_size b /\
    m_max_blobs b' = m_max_blobs b /\
    size b' = size b.
Proof.
  intros Hid. eexists. split; [now apply release_lock_defined|].
  cbn [m_blob_locks m_blob_index m_max_blob_size m_max_blobs set_blob_locks].
  destruct (vec_at_defined (m_blob_locks b) id Hid) as [r Hr].
  repeat split.
  - now apply vec_at_insert_eq with r.
  - intros j Hj. apply vec_at_insert_ne; [apply Hid | exact Hj].
  - unfold size. cbn [m_blob_locks set_blob_locks]. now rewrite length_insert.
Qed.

(** ** The requested size *)

(** C10.  The outcome of [request_lock], result and state, is the same for
    any two requested sizes. *)
Theorem request_lock_ignores_size b s1 s2 :
  request_lock b s1 = request_lock b s2.
Proof. reflexivity. Qed.

(** ** The statements at sample states *)

Ltac int_bounds :=
  unfold in_int, in_int64, int_min, int_max, int64_min, int64_max; lia.

Ltac built_by mb n m :=
  apply (reachable_construct mb n m); [int_bounds | int_bounds | int_bounds | reflexivity].

Lemma granted_lock_is_exclusive_witness :
  reachable three_blobs /\
  request_lock three_blobs 10 = Ret 1 three_blobs_one_locked /\
  is_locked three_blobs_one_locked 1 = Some true /\
  forall cs b2,
    Forall (fun c => releases 1 c = false) cs ->
    run three_blobs_one_locked cs = Some b2 ->
    is_locked b2 1 = Some true /\
    forall sz' id' b3, request_lock b2 sz' = Ret id' b3 -> id' <> 1.
Proof.
  split; [built_by 2 3 4|]. split; [reflexivity|].
  apply (granted_lock_is_exclusive three_blobs 10 1 three_blobs_one_locked);
    [built_by 2 3 4 | reflexivity].
Defined.

Lemma capacity_exceeded_iff_witness :
  reachable one_blob /\
  0 <= m_max_blobs one_blob /\
  0 <= m_max_blob_size one_blob /\
  ((exists b', request_lock one_blob 10 = Throw BlobLimitErr b') <->
   Forall (locked_or_full one_blob) (m_blob_locks one_blob) /\
   m_max_blobs one_blob <= size one_blob) /\
  in_int 3 /\
  construct 2 3 3 = inr (mkBlobManager 2097152 3
                           [fresh_record; fresh_record; fresh_record] 0) /\
  length [10; 20; 30] = Z.to_nat 3 /\
  exists b b',
    run (mkBlobManager 2097152 3 [fresh_record; fresh_record; fresh_record] 0)
      (map CallRequest [10; 20; 30]) = Some b /\
    request_lock b 40 = Throw BlobLimitErr b'.
Proof.
  split; [built_by 2 1 1|].
  split; [vm_compute; discriminate|]. split; [vm_compute; discriminate|].
  split; [apply (proj1 capacity_exceeded_iff one_blob 10);
            [built_by 2 1 1 | vm_compute; discriminate | vm_compute; discriminate]|].
  split; [int_bounds|]. split; [reflexivity|]. split; [reflexivity|].
  apply (proj2 capacity_exceeded_iff 2 3 [10; 20; 30] 40);
    [int_bounds | reflexivity | reflexivity].
Defined.

Lemma growth_when_full_witness :
  construct 2 1 3 = inr (mkBlobManager 2097152 3 [fresh_record] 0) /\
  0 < max_blob_size (mkBlobManager 2097152 3 [fresh_record] 0) /\
  (exists id1 b1 b2 id2 b3,
      request_lock (mkBlobManager 2097152 3 [fresh_record] 0) 10 = Ret id1 b1 /\
      release_lock b1 id1
        (max_blob_size (mkBlobManager 2097152 3 [fresh_record] 0)) = Ret tt b2 /\
      request_lock b2 20 = Ret id2 b3 /\
      id2 <> id1 /\ id2 = size b2 /\ size b2 = 1 /\ size b3 = 2) /\
  reachable (mkBlobManager 0 3 [fresh_record] 0) /\
  0 <= max_blob_size (mkBlobManager 0 3 [fresh_record] 0) /\
  Forall (locked_or_full (mkBlobManager 0 3 [fresh_record] 0)) [fresh_record] /\
  size (mkBlobManager 0 3 [fresh_record] 0) < 3 /\
  exists b',
    request_lock (mkBlobManager 0 3 [fresh_record] 0) 10 = Ret 1 b' /\
    m_blob_locks b' = [fresh_record; mkBlobRecord true 0] /\
    is_locked b' 1 = Some true.
Proof.
  assert (Hfull : Forall (locked_or_full (mkBlobManager 0 3 [fresh_record] 0))
                    [fresh_record]).
  { constructor; [right; simpl; lia | constructor]. }
  split; [reflexivity|]. split; [vm_compute; reflexivity|].
  split.
  { apply (proj1 growth_when_full 2 _ 10 20); [reflexivity | vm_compute; reflexivity]. }
  split; [built_by 0 1 3|]. split; [vm_compute; discriminate|].
  split; [exact Hfull|].
  split; [vm_compute; reflexivity|].
  apply (proj2 growth_when_full (mkBlobManager 0 3 [fresh_record] 0) 10).
  - built_by 0 1 3.
  - vm_compute. discriminate.
  - exact Hfull.
  - vm_compute. reflexivity.
Defined.

Lemma round_robin_witness :
  reachable three_blobs /\
  all_available three_blobs /\
  Forall (fun p => snd p < m_max_blob_size three_blobs)
    [(1, 5); (1, 6); (1, 7); (1, 8)] /\
  exists ids b',
    request_release three_blobs [(1, 5); (1, 6); (1, 7); (1, 8)] = Some (ids, b') /\
    length ids = 4%nat /\
    (forall k, (k < 4)%nat ->
               ids !! k = Some ((m_blob_index three_blobs + 1 + Z.of_nat k)
                                mod size three_blobs)) /\
    (forall i j x y,
        (i < j)%nat -> (j < i + length (m_blob_locks three_blobs))%nat ->
        ids !! i = Some x -> ids !! j = Some y -> x <> y).
Proof.
  assert (Hall : all_available three_blobs).
  { unfold all_available. simpl. repeat constructor; simpl; lia. }
  assert (Hoffs : Forall (fun p => snd p < m_max_blob_size three_blobs)
                    [(1, 5); (1, 6); (1, 7); (1, 8)]).
  { simpl. repeat constructor; simpl; lia. }
  split; [built_by 2 3 4|]. split; [exact Hall|]. split; [exact Hoffs|].
  apply (round_robin three_blobs [(1, 5); (1, 6); (1, 7); (1, 8)]);
    [built_by 2 3 4 | exact Hall | exact Hoffs].
Defined.

Lemma segment_count_bounded_witness :
  in_int 3 /\ in_int 4 /\ 3 <= 4 /\
  construct 2 3 4 = inr three_blobs /\
  run three_blobs [CallRequest 10; CallRelease 1 100; CallRequest 20]
  = Some (mkBlobManager 2097152 4
            [fresh_record; mkBlobRecord false 100; mkBlobRecord true 0] 2) /\
  m_max_blobs (mkBlobManager 2097152 4
            [fresh_record; mkBlobRecord false 100; mkBlobRecord true 0] 2) = 4 /\
  size (mkBlobManager 2097152 4
            [fresh_record; mkBlobRecord false 100; mkBlobRecord true 0] 2)
  <= m_max_blobs (mkBlobManager 2097152 4
            [fresh_record; mkBlobRecord false 100; mkBlobRecord true 0] 2).
Proof.
  split; [int_bounds|]. split; [int_bounds|]. split; [lia|].
  split; [reflexivity|]. split; [reflexivity|].
  apply (segment_count_bounded 2 3 4 three_blobs
           [CallRequest 10; CallRelease 1 100; CallRequest 20]);
    [int_bounds | int_bounds | lia | reflexivity | reflexivity].
Defined.


Lemma construct_spec_witness :
  1 <= 3 /\ in_int64 (2 * 1048576) /\
  exists b,
    construct 2 3 4 = inr b /\
    max_blob_size b = m_max_blob_size b /\
    (in_int64 (2 * 1048576) -> max_blob_size b = 2 * 1048576) /\
    m_max_blobs b = 4 /\
    size b = 3 /\
    Forall (fun r => r = mkBlobRecord false 0) (m_blob_locks b) /\
    m_blob_index b = 0.
Proof.
  split; [lia|]. split; [int_bounds|].
  apply (proj2 (construct_spec 2 3 4)). lia.
Defined.

Lemma failed_request_locks_nothing_witness :
  reachable one_blob_locked /\
  request_lock one_blob_locked 10 = Throw BlobLimitErr one_blob_locked /\
  m_blob_locks one_blob_locked = m_blob_locks one_blob_locked /\
  forall id, is_locked one_blob_locked id = is_locked one_blob_locked id.
Proof.
  split.
  { apply (reachable_step one_blob (CallRequest 10)); [built_by 2 1 1 | reflexivity]. }
  split; [reflexivity|].
  apply (failed_request_locks_nothing one_blob_locked 10 one_blob_locked);
    [|reflexivity].
  apply (reachable_step one_blob (CallRequest 10)); [built_by 2 1 1 | reflexivity].
Defined.

Lemma release_lock_frame_witness :
  in_range three_blobs_one_locked 1 /\
  exists b',
    release_lock three_blobs_one_locked 1 100 = Ret tt b' /\
    vec_at (m_blob_locks b') 1 = Some (mkBlobRecord false 100) /\
    (forall j, j <> 1 ->
               vec_at (m_blob_locks b') j
               = vec_at (m_blob_locks three_blobs_one_locked) j) /\
    m_blob_index b' = m_blob_index three_blobs_one_locked /\
    m_max_blob_size b' = m_max_blob_size three_blobs_one_locked /\
    m_max_blobs b' = m_max_blobs three_blobs_one_locked /\
    size b' = size three_blobs_one_locked.
Proof.
  assert (H : in_range three_blobs_one_locked 1).
  { unfold in_range. vm_compute. split; [discriminate | reflexivity]. }
  split; [exact H|].
  apply (release_lock_frame three_blobs_one_locked 1 100 H).
Defined.

(** * Further properties of the allocator *)

(** ** The cursor step *)

(** X1.  On a table of 1 to [INT_MAX] records, [increment_blob_index] puts
    the cursor on a record whatever value it held, [INT_MAX] and negative
    values included; from a record it goes to the next one and from the
    last record back to 0. *)
Theorem increment_blob_index_wraps b i :
  1 <= size b <= int_max ->
  0 <= increment_blob_index b i < size b /\
  (0 <= i < size b -> increment_blob_index b i = (i + 1) mod size b) /\
  (0 <= i < size b - 1 -> increment_blob_index b i = i + 1) /\
  (i = size b - 1 -> increment_blob_index b i = 0) /\
  (i < 0 \/ size b <= i -> in_int i -> increment_blob_index b i = 0).
Proof.
  intros Hsize0.
  assert (Hsize : 1 <= size b <= int_max + 1) by lia.
  split; [exact (increment_blob_index_range b Hsize i)|].
  split; [exact (increment_blob_index_mod b Hsize i)|].
  split; [|split].
  - intros Hi. rewrite increment_blob_index_next by lia.
    destruct (i + 1 <? size b) eqn:E; [reflexivity | apply Z.ltb_ge in E; lia].
  - intros Hi. rewrite increment_blob_index_next by lia.
    destruct (i + 1 <? size b) eqn:E; [apply Z.ltb_lt in E; lia | reflexivity].
  - intros Hout [Hlo Hhi]. unfold increment_blob_index.
    destruct (to_size_t (wrap_int (i + 1)) >=? size b) eqn:E; [reflexivity|].
    rewrite Z.geb_leb, Z.leb_gt in E.
    unfold int_min, int_max in *.
    destruct (Z.eq_dec i 2147483647) as [-> | Hmax].
    + exfalso.
      assert (Hw : wrap_int (2147483647 + 1) = -2147483648) by reflexivity.
      rewrite Hw in E.
      pose proof (to_size_t_negative (-2147483648)) as Hn.
      unfold int_min, int_max in Hn. lia.
    + rewrite wrap_int_small in * by (unfold in_int, int_min, int_max; lia).
      destruct (Z_lt_le_dec (i + 1) 0) as [Hneg | Hpos].
      * exfalso. pose proof (to_size_t_negative (i + 1)) as Hn.
        unfold int_min, int_max in Hn. lia.
      * rewrite to_size_t_small in E by (unfold int_max; lia). lia.
Qed.

Lemma increment_blob_index_wraps_witness :
  1 <= size three_blobs <= int_max /\
  0 <= increment_blob_index three_blobs 2147483647 < size three_blobs /\
  (0 <= 2 < size three_blobs ->
   increment_blob_index three_blobs 2 = (2 + 1) mod size three_blobs).
Proof.
  assert (H : 1 <= size three_blobs <= int_max).
  { unfold int_max. vm_compute. split; discriminate. }
  split; [exact H|].
  split.
  - exact (proj1 (increment_blob_index_wraps three_blobs 2147483647 H)).
  - exact (proj1 (proj2 (increment_blob_index_wraps three_blobs 2 H))).
Defined.

(** ** The poll *)

Lemma is_available_Some b id a :
  is_available b id = Some a <->
  exists r, vec_at (m_blob_locks b) id = Some r /\ available b r = a.
Proof.
  unfold is_available. destruct (vec_at (m_blob_locks b) id) as [r|]; simpl.
  - split; [intros [= <-]; eauto | intros (r' & [= <-] & <-); reflexivity].
  - split; [discriminate | intros (r' & H & _); discriminate].
Qed.

(** X2.  In every reachable state with at most [INT_MAX] records,
    [get_next_available_blob] returns; it leaves the capacity and the cap
    alone and changes the table at most by appending one unlocked record
    with offset 0.  It returns -1 exactly when no record passes the
    availability test and the number of records has reached the cap, both
    compared as the code compares them (the offset with the capacity in
    [uint64], the number of records with the cap in [size_t], so that a
    negative cap is never reached); the table is then unchanged.  Any other
    value it returns is the index of a record that is still unlocked. *)
Theorem get_next_available_blob_result b :
  reachable b ->
  size b <= int_max ->
  exists id b',
    get_next_available_blob b = Ret id b' /\
    m_max_blob_size b' = m_max_blob_size b /\
    m_max_blobs b' = m_max_blobs b /\
    (id = -1 <-> none_available b /\ cap_reached b) /\
    (m_max_blobs b < 0 -> id <> -1) /\
    (id = -1 -> m_blob_locks b' = m_blob_locks b) /\
    (id <> -1 ->
     is_locked b' id = Some false /\
     (m_blob_locks b' = m_blob_locks b \/
      m_blob_locks b' = m_blob_locks b ++ [mkBlobRecord false 0])).
Proof.
  intros Hreach Hle. destruct (reachable_usable b Hreach) as [(H1 & Hs & Hm & _) _].
  pose proof (proj2 (to_size_t_cap _ Hm)) as Hneg.
  unfold none_available, cap_reached.
  destruct (get_next_available_blob_spec b (conj H1 Hs))
    as [(id & r & Hg & Hat & Hav) | [Hall Hg]].
  - exists id, (set_blob_index b id). pose proof (vec_at_in_range _ _ _ Hat) as Hid.
    split; [exact Hg|]. split; [reflexivity|]. split; [reflexivity|].
    split; [|split; [|split]].
    + split; [lia|]. intros [Hnone _].
      rewrite Forall_vec_at in Hnone. specialize (Hnone id r Hat). congruence.
    + lia.
    + lia.
    + intros _. split; [|now left]. apply is_locked_Some. exists r.
      split; [exact Hat|]. now apply available_unlocked with b.
  - destruct (size b >=? to_size_t (m_max_blobs b)) eqn:E.
    + rewrite Z.geb_leb, Z.leb_le in E.
      exists (-1), (advanced b). split; [exact Hg|].
      split; [reflexivity|]. split; [reflexivity|].
      split; [tauto|]. split; [intros Hlt; specialize (Hneg Hlt); lia|].
      split; [reflexivity|]. intros Hne. now contradiction Hne.
    + rewrite Z.geb_leb, Z.leb_gt in E.
      rewrite wrap_int_small in Hg
        by (unfold in_int, int_min, int_max in *; lia).
      exists (size b), (set_blob_locks (advanced b) (m_blob_locks b ++ [fresh_record])).
      split; [exact Hg|]. split; [reflexivity|]. split; [reflexivity|].
      split; [|split; [|split]].
      * split; [lia|]. intros [_ Hge]. lia.
      * lia.
      * lia.
      * intros _. split; [|now right].
        unfold is_locked, size. cbn [m_blob_locks set_blob_locks].
        rewrite vec_at_of_nat, lookup_app_r by lia. now rewrite Nat.sub_diag.
Qed.

Lemma get_next_available_blob_result_witness :
  reachable negative_cap_locked /\
  size negative_cap_locked <= int_max /\
  exists id b',
    get_next_available_blob negative_cap_locked = Ret id b' /\
    m_max_blob_size b' = m_max_blob_size negative_cap_locked /\
    m_max_blobs b' = m_max_blobs negative_cap_locked /\
    (id = -1 <->
     none_available negative_cap_locked /\ cap_reached negative_cap_locked) /\
    (m_max_blobs negative_cap_locked < 0 -> id <> -1) /\
    (id = -1 -> m_blob_locks b' = m_blob_locks negative_cap_locked) /\
    (id <> -1 ->
     is_locked b' id = Some false /\
     (m_blob_locks b' = m_blob_locks negative_cap_locked \/
      m_blob_locks b' = m_blob_locks negative_cap_locked ++ [mkBlobRecord false 0])).
Proof.
  assert (H : reachable negative_cap_locked).
  { apply (reachable_step (mkBlobManager 1048576 (-1) [fresh_record] 0)
             (CallRequest 10)); [built_by 1 1 (-1) | reflexivity]. }
  assert (Hle : size negative_cap_locked <= int_max) by (vm_compute; discriminate).
  split; [exact H|]. split; [exact Hle|].
  exact (get_next_available_blob_result negative_cap_locked H Hle).
Defined.

(** ** What a request changes *)

(** X3.  In every state an allocator can reach, a [request_lock] that
    throws has moved the cursor to the next record, wrapping after the last
    one, and changed nothing else; with two records or more the cursor is
    therefore not where it was, and the request that follows, which throws
    as well, moves it once more. *)
Theorem throwing_request_moves_cursor_only b sz e b' :
  reachable b ->
  request_lock b sz = Throw e b' ->
  b' = set_blob_index b ((m_blob_index b + 1) mod size b) /\
  (2 <= size b -> m_blob_index b' <> m_blob_index b) /\
  forall sz',
    request_lock b' sz'
    = Throw BlobLimitErr
        (set_blob_index b ((m_blob_index b + 1 + 1) mod size b)).
Proof.
  intros Hreach H. destruct (reachable_usable b Hreach) as [Hu Hok].
  pose proof Hu as (H1 & Hs & _).
  assert (Hstep : state_of (request_lock b sz) = Some b') by now rewrite H.
  destruct (request_lock_preserves b sz b' Hu Hstep) as (Hu' & Hok' & _).
  pose proof (increment_blob_index_mod b (conj H1 Hs) _ Hok) as Hmod.
  destruct (request_lock_cases b sz (conj H1 Hs))
    as [(id & r & Hr & _)
       | [(_ & _ & _ & Hr) | [(_ & _ & _ & Hr) | (Hnone & Hcap & Hr)]]];
    rewrite Hr in H; try discriminate.
  injection H as <- <-. unfold advanced in *. rewrite Hmod in *.
  set (b1 := set_blob_index b ((m_blob_index b + 1) mod size b)) in *.
  split; [reflexivity|]. split.
  - intros H2. cbn [b1 m_blob_index set_blob_index]. intros Heq.
    destruct (Z.eq_dec (m_blob_index b + 1) (size b)) as [E | E].
    + rewrite E, Z.mod_same in Heq by lia. unfold search_ok in Hok. lia.
    + rewrite Z.mod_small in Heq by (unfold search_ok in Hok; lia). lia.
  - intros sz'. pose proof Hu' as (H1' & Hs' & _).
    destruct (request_lock_cases b1 sz' (conj H1' Hs'))
      as [(id & r & _ & Hat & Hav)
         | [(_ & Hlt & _) | [(_ & Hlt & _) | (_ & _ & Hr')]]].
    + exfalso. rewrite Forall_vec_at in Hnone.
      specialize (Hnone id r Hat). change (available b1 r) with (available b r) in Hav.
      congruence.
    + exfalso. change (size b1) with (size b) in Hlt.
      change (m_max_blobs b1) with (m_max_blobs b) in Hlt. lia.
    + exfalso. change (size b1) with (size b) in Hlt.
      change (m_max_blobs b1) with (m_max_blobs b) in Hlt. lia.
    + rewrite Hr'. f_equal. unfold advanced.
      rewrite (increment_blob_index_mod b1 (conj H1' Hs') _ Hok').
      cbn [b1 m_blob_index set_blob_index]. change (size b1) with (size b).
      rewrite Z.add_mod_idemp_l by lia. reflexivity.
Qed.

Lemma throwing_request_moves_cursor_only_witness :
  reachable two_blobs_locked /\
  request_lock two_blobs_locked 10
  = Throw BlobLimitErr
      (mkBlobManager 1048576 2 [mkBlobRecord true 0; mkBlobRecord true 0] 1) /\
  mkBlobManager 1048576 2 [mkBlobRecord true 0; mkBlobRecord true 0] 1
  = set_blob_index two_blobs_locked
      ((m_blob_index two_blobs_locked + 1) mod size two_blobs_locked) /\
  (2 <= size two_blobs_locked ->
   m_blob_index
     (mkBlobManager 1048576 2 [mkBlobRecord true 0; mkBlobRecord true 0] 1)
   <> m_blob_index two_blobs_locked).
Proof.
  assert (H : reachable two_blobs_locked).
  { apply (reachable_step
             (mkBlobManager 1048576 2 [fresh_record; mkBlobRecord true 0] 1)
             (CallRequest 10)); [|reflexivity].
    apply (reachable_step
             (mkBlobManager 1048576 2 [fresh_record; fresh_record] 0)
             (CallRequest 10)); [built_by 1 2 2 | reflexivity]. }
  split; [exact H|]. split; [reflexivity|].
  pose proof (throwing_request_moves_cursor_only two_blobs_locked 10 BlobLimitErr
                _ H eq_refl) as (Heq & Hmoved & _).
  split; [exact Heq | exact Hmoved].
Defined.

Lemma vec_at_app_other v r j :
  j <> Z.of_nat (length v) -> vec_at (v ++ [r]) j = vec_at v j.
Proof.
  intros Hne. unfold vec_at. destruct (0 <=? j) eqn:E; [|reflexivity].
  apply Z.leb_le in E.
  destruct (Nat.lt_ge_cases (Z.to_nat j) (length v)) as [Hlt | Hge].
  - now rewrite lookup_app_l.
  - rewrite !lookup_ge_None_2; [reflexivity | lia |].
    rewrite length_app. simpl. lia.
Qed.

(** X4.  In every state an allocator can reach, a [request_lock] that
    returns keeps the capacity, the cap and every record other than the
    granted one.  Either the granted record was in the table and passed the
    availability test: it keeps its offset, the cursor is left on it and the
    number of records is unchanged.  Or the id is the former number of
    records: no record was available, the cap was not reached, the new record
    has offset 0, and the cursor has moved by one position. *)
Theorem request_lock_frame b sz id b' :
  reachable b ->
  request_lock b sz = Ret id b' ->
  m_max_blob_size b' = m_max_blob_size b /\
  m_max_blobs b' = m_max_blobs b /\
  (forall j, j <> id ->
             vec_at (m_blob_locks b') j = vec_at (m_blob_locks b) j) /\
  ((exists r,
       vec_at (m_blob_locks b) id = Some r /\
       locked r = false /\
       is_available b id = Some true /\
       vec_at (m_blob_locks b') id
       = Some (mkBlobRecord true (current_blob_offset r)) /\
       size b' = size b /\
       m_blob_index b' = id)
   \/ (id = size b /\
       none_available b /\
       ~ cap_reached b /\
       vec_at (m_blob_locks b') id = Some (mkBlobRecord true 0) /\
       size b' = size b + 1 /\
       m_blob_index b' = (m_blob_index b + 1) mod size b)).
Proof.
  intros Hreach H. destruct (reachable_usable b Hreach) as [(H1 & Hs & _) Hok].
  unfold none_available, cap_reached.
  destruct (request_lock_cases b sz (conj H1 Hs))
    as [(id' & r & Hr & Hat & Hav)
       | [(Hall & Hlt & _ & Hr) | [(_ & _ & _ & Hr) | (_ & _ & Hr)]]];
    rewrite Hr in H; try discriminate; injection H as <- <-;
    cbn [m_blob_locks m_blob_index m_max_blobs m_max_blob_size
           set_blob_locks set_blob_index advanced].
  - pose proof (vec_at_in_range _ _ _ Hat) as Hid.
    split; [reflexivity|]. split; [reflexivity|]. split.
    + intros j Hj. apply vec_at_insert_ne; [lia | exact Hj].
    + left. exists r.
      split; [exact Hat|]. split; [now apply available_unlocked with b|].
      split; [apply is_available_Some; eauto|].
      split; [now apply vec_at_insert_eq with r|].
      split; [|reflexivity].
      unfold size. cbn [m_blob_locks set_blob_locks]. now rewrite length_insert.
  - split; [reflexivity|]. split; [reflexivity|]. split.
    + intros j Hj. now apply vec_at_app_other.
    + right. split; [reflexivity|].
      split; [exact Hall|]. split; [lia|].
      split; [|split].
      * unfold size. rewrite vec_at_of_nat, lookup_app_r by lia.
        now rewrite Nat.sub_diag.
      * unfold size. cbn [m_blob_locks set_blob_locks]. rewrite length_app.
        simpl. lia.
      * now rewrite (increment_blob_index_mod b (conj H1 Hs) _ Hok).
Qed.

Lemma request_lock_frame_witness :
  reachable three_blobs /\
  request_lock three_blobs 10 = Ret 1 three_blobs_one_locked /\
  m_max_blob_size three_blobs_one_locked = m_max_blob_size three_blobs /\
  m_max_blobs three_blobs_one_locked = m_max_blobs three_blobs /\
  (forall j, j <> 1 ->
             vec_at (m_blob_locks three_blobs_one_locked) j
             = vec_at (m_blob_locks three_blobs) j).
Proof.
  assert (H : reachable three_blobs) by built_by 2 3 4.
  split; [exact H|]. split; [reflexivity|].
  pose proof (request_lock_frame three_blobs 10 1 three_blobs_one_locked H eq_refl)
    as (Hc & Hm & Hother & _).
  auto.
Defined.

(** X5.  In every state an allocator can reach, while some record is
    unlocked and below the capacity [request_lock] neither throws nor
    appends: it grants a record of the table that was available. *)
Theorem available_record_is_reused b sz i :
  reachable b ->
  is_available b i = Some true ->
  exists id b',
    request_lock b sz = Ret id b' /\
    in_range b id /\
    is_available b id = Some true /\
    size b' = size b.
Proof.
  intros Hreach Hav. destruct (reachable_usable b Hreach) as [(H1 & Hs & _) _].
  apply is_available_Some in Hav as (ri & Hati & Havi).
  destruct (request_lock_cases b sz (conj H1 Hs))
    as [(id & r & Hr & Hat & Hav) | [(Hall & _) | [(Hall & _) | (Hall & _)]]].
  - eexists. eexists. split; [exact Hr|].
    split; [exact (vec_at_in_range _ _ _ Hat)|].
    split; [apply is_available_Some; eauto|].
    unfold size. cbn [m_blob_locks set_blob_locks]. now rewrite length_insert.
  - rewrite Forall_vec_at in Hall. specialize (Hall i ri Hati). congruence.
  - rewrite Forall_vec_at in Hall. specialize (Hall i ri Hati). congruence.
  - rewrite Forall_vec_at in Hall. specialize (Hall i ri Hati). congruence.
Qed.

Lemma available_record_is_reused_witness :
  reachable three_blobs_one_locked /\
  is_available three_blobs_one_locked 0 = Some true /\
  exists id b',
    request_lock three_blobs_one_locked 10 = Ret id b' /\
    in_range three_blobs_one_locked id /\
    is_available three_blobs_one_locked id = Some true /\
    size b' = size three_blobs_one_locked.
Proof.
  assert (H : reachable three_blobs_one_locked).
  { apply (reachable_step three_blobs (CallRequest 10)); [built_by 2 3 4 | reflexivity]. }
  split; [exact H|]. split; [reflexivity|].
  exact (available_record_is_reused three_blobs_one_locked 10 0 H eq_refl).
Defined.

(** ** The order of the scan *)

Lemma mod_shift j t n :
  0 < n -> ((j + 1) mod n + t) mod n = (j + (t + 1)) mod n.
Proof.
  intros Hn. rewrite Z.add_mod_idemp_l by lia. f_equal. lia.
Qed.

(** A record returned by the loop is the first available one met from the
    record the loop started on. *)
Lemma search_first fuel :
  forall b s id b',
    1 <= size b <= int_max + 1 ->
    0 <= s < size b ->
    0 <= m_blob_index b < size b ->
    search fuel b s = Ret (Some id) b' ->
    exists t,
      0 <= t < dist (size b) s (m_blob_index b) /\
      id = (m_blob_index b + t) mod size b /\
      forall t' r,
        0 <= t' < t ->
        vec_at (m_blob_locks b) ((m_blob_index b + t') mod size b) = Some r ->
        available b r = false.
Proof.
  induction fuel as [|fuel IH]; intros b s id b' Hsize Hs Hj H; [discriminate|].
  simpl in H. destruct (m_blob_index b =? s) eqn:Eq; [discriminate|].
  apply Z.eqb_neq in Eq.
  destruct (vec_at (m_blob_locks b) (m_blob_index b)) as [r|] eqn:Hr;
    [|discriminate].
  destruct (available b r) eqn:Ea.
  - injection H as <- <-. exists 0. split; [|split].
    + unfold dist.
      destruct (m_blob_index b <=? s) eqn:E;
        [apply Z.leb_le in E | apply Z.leb_gt in E]; lia.
    + rewrite Z.add_0_r. now rewrite Z.mod_small by lia.
    + intros t' r' Ht'. lia.
  - pose proof (increment_blob_index_range b Hsize (m_blob_index b)) as Hinc.
    pose proof (dist_increment b Hsize s (m_blob_index b) Hs Hj Eq) as Hdist.
    pose proof (increment_blob_index_mod b Hsize (m_blob_index b) Hj) as Hmod.
    destruct (IH (set_blob_index b (increment_blob_index b (m_blob_index b)))
                s id b' Hsize Hs Hinc H) as (t & Ht & Hid & Hbefore).
    cbn [m_blob_index m_blob_locks set_blob_index] in *.
    change (size (set_blob_index b (increment_blob_index b (m_blob_index b))))
      with (size b) in *.
    rewrite Hmod in Hid, Hbefore. rewrite mod_shift in Hid by lia.
    exists (t + 1). split; [lia|]. split; [exact Hid|].
    intros t' r' Ht' Hat.
    destruct (Z.eq_dec t' 0) as [-> | Hnz].
    + rewrite Z.add_0_r, Z.mod_small in Hat by lia. congruence.
    + apply (Hbefore (t' - 1) r'); [lia|].
      rewrite mod_shift by lia. now replace (t' - 1 + 1) with t' by lia.
Qed.

(** The value returned for an appended record is its index, or is negative
    when the index is no [int]. *)
Lemma appended_index b :
  size b <= int_max + 1 ->
  wrap_int (to_size_t
              (size (set_blob_locks b (m_blob_locks b ++ [fresh_record])) - 1))
  = size b
  \/ wrap_int (to_size_t
                 (size (set_blob_locks b (m_blob_locks b ++ [fresh_record])) - 1))
     < 0.
Proof.
  intros Hs. unfold size in *. cbn [m_blob_locks set_blob_locks].
  rewrite length_app. simpl.
  replace (Z.of_nat (length (m_blob_locks b) + 1) - 1)
    with (Z.of_nat (length (m_blob_locks b))) by lia.
  rewrite to_size_t_small by lia.
  destruct (Z_le_gt_dec (Z.of_nat (length (m_blob_locks b))) int_max) as [Hle | Hgt].
  - left. apply wrap_int_small. unfold in_int, int_min, int_max in *. lia.
  - right. replace (Z.of_nat (length (m_blob_locks b))) with (int_max + 1) by lia.
    rewrite wrap_int_past_max. unfold int_min. lia.
Qed.

(** A record of the table returned by the poll is the first available one
    after the cursor. *)
Lemma get_next_available_blob_first b id b' :
  1 <= size b <= int_max + 1 ->
  0 <= m_blob_index b < size b ->
  get_next_available_blob b = Ret id b' ->
  0 <= id < size b ->
  exists d,
    1 <= d <= size b /\
    id = (m_blob_index b + d) mod size b /\
    forall k r,
      1 <= k < d ->
      vec_at (m_blob_locks b) ((m_blob_index b + k) mod size b) = Some r ->
      available b r = false.
Proof.
  intros Hsize Hok H Hid. unfold get_next_available_blob in H.
  pose proof (increment_blob_index_range b Hsize (m_blob_index b)) as H1.
  pose proof (increment_blob_index_mod b Hsize (m_blob_index b) Hok) as Hm1.
  set (i1 := increment_blob_index b (m_blob_index b)) in *.
  cbn [m_blob_locks m_blob_index set_blob_index] in H.
  destruct (vec_at (m_blob_locks b) i1) as [r1|] eqn:Hr1; [|discriminate].
  change (available (set_blob_index b i1) r1) with (available b r1) in H.
  destruct (available b r1) eqn:Ea1.
  { injection H as <- <-. exists 1. split; [lia|]. split; [exact Hm1|].
    intros k r Hk. lia. }
  change (increment_blob_index (set_blob_index b i1) i1)
    with (increment_blob_index b i1) in H.
  pose proof (increment_blob_index_range b Hsize i1) as H2.
  pose proof (increment_blob_index_mod b Hsize i1 H1) as Hm2.
  set (i2 := increment_blob_index b i1) in *.
  change (set_blob_index (set_blob_index b i1) i2) with (set_blob_index b i2) in H.
  destruct (search (length (m_blob_locks b)) (set_blob_index b i2) i1)
    as [[id0|] b0| | |] eqn:Hsearch; try discriminate.
  - injection H as -> <-.
    destruct (search_first (length (m_blob_locks b)) (set_blob_index b i2) i1
                id b0 Hsize H1 H2 Hsearch) as (t & Ht & Hidt & Hbefore).
    cbn [m_blob_index m_blob_locks set_blob_index] in *.
    change (size (set_blob_index b i2)) with (size b) in *.
    assert (Hd : dist (size b) i1 i2 = size b - 1).
    { rewrite Hm2. unfold dist.
      destruct (Z.eq_dec (i1 + 1) (size b)) as [E | E].
      - rewrite E, Z.mod_same by lia.
        destruct (0 <=? i1) eqn:E'; [|apply Z.leb_gt in E']; lia.
      - rewrite Z.mod_small by lia.
        destruct (i1 + 1 <=? i1) eqn:E'; [apply Z.leb_le in E'|]; lia. }
    rewrite Hm2, Hm1 in Hidt, Hbefore.
    rewrite mod_shift in Hidt by lia.
    rewrite mod_shift in Hidt by lia.
    exists (t + 1 + 1). split; [lia|]. split; [exact Hidt|].
    intros k r Hk Hat.
    destruct (Z.eq_dec k 1) as [-> | Hk1].
    + rewrite <- Hm1 in Hat. congruence.
    + apply (Hbefore (k - 2) r); [lia|].
      rewrite mod_shift by lia. rewrite mod_shift by lia.
      now replace (k - 2 + 1 + 1) with k by lia.
  - exfalso.
    destruct (search_spec (length (m_blob_locks b)) (set_blob_index b i2) i1)
      as [(id1 & r & Hs1 & _) | [Hs1 _]]; try assumption.
    { cbn [m_blob_index set_blob_index].
      change (size (set_blob_index b i2)) with (size b).
      unfold i2. rewrite increment_blob_index_next by assumption.
      unfold dist, size in *.
      destruct (i1 + 1 <? Z.of_nat (length (m_blob_locks b))) eqn:E;
        [apply Z.ltb_lt in E | apply Z.ltb_ge in E];
        match goal with
        | |- context [?x <=? ?y] =>
            let E' := fresh in
            destruct (x <=? y) eqn:E'; [apply Z.leb_le in E' | apply Z.leb_gt in E']
        end; lia. }
    { rewrite Hs1 in Hsearch. discriminate. }
    rewrite Hs1 in Hsearch. injection Hsearch as <-.
    cbn [m_blob_locks m_blob_index m_max_blobs set_blob_index] in H.
    change (size (set_blob_index (set_blob_index b i2) i1)) with (size b) in H.
    destruct (size b >=? to_size_t (m_max_blobs b)).
    + injection H as <- <-. lia.
    + change (set_blob_index (set_blob_index b i2) i1) with (advanced b) in H.
      injection H as <- <-.
      pose proof (appended_index (advanced b)) as Happ.
      change (size (advanced b)) with (size b) in Happ.
      change (m_blob_locks (advanced b)) with (m_blob_locks b) in Happ.
      destruct (Happ ltac:(lia)) as [Heq | Hneg]; lia.
Qed.

(** X6.  In every state an allocator can reach, a record of the table that
    [request_lock] grants is the first available one in cyclic order after
    the cursor: it lies d positions after the cursor, with d between 1 and
    the number of records, and the records less than d positions after the
    cursor are all locked or full. *)
Theorem request_lock_first_fit b sz id b' :
  reachable b ->
  request_lock b sz = Ret id b' ->
  id < size b ->
  exists d,
    1 <= d <= size b /\
    id = (m_blob_index b + d) mod size b /\
    forall k r,
      1 <= k < d ->
      vec_at (m_blob_locks b) ((m_blob_index b + k) mod size b) = Some r ->
      locked_or_full b r.
Proof.
  intros Hreach H Hlt.
  destruct (reachable_usable b Hreach) as [(H1 & Hs & _ & Hc & _) Hok].
  unfold request_lock in H.
  destruct (get_next_available_blob b) as [next b0| | |] eqn:Hg; try discriminate.
  destruct (next =? -1) eqn:E; [discriminate|].
  destruct (vec_update (m_blob_locks b0) next (set_locked true)) as [v|] eqn:Hv;
    [|discriminate].
  injection H as -> <-.
  assert (Hid : 0 <= id).
  { unfold vec_update in Hv.
    destruct (vec_at (m_blob_locks b0) id) as [r|] eqn:Hat; [|discriminate].
    apply vec_at_in_range in Hat. lia. }
  destruct (get_next_available_blob_first b id b0 (conj H1 Hs) Hok Hg (conj Hid Hlt))
    as (d & Hd & Hidd & Hbefore).
  exists d. split; [exact Hd|]. split; [exact Hidd|].
  intros k r Hk Hat. apply unavailable_locked_or_full; [exact Hc|].
  exact (Hbefore k r Hk Hat).
Qed.

Lemma request_lock_first_fit_witness :
  reachable three_blobs_one_locked /\
  request_lock three_blobs_one_locked 10
  = Ret 2 (mkBlobManager 2097152 4
             [fresh_record; mkBlobRecord true 0; mkBlobRecord true 0] 2) /\
  2 < size three_blobs_one_locked /\
  exists d,
    1 <= d <= size three_blobs_one_locked /\
    2 = (m_blob_index three_blobs_one_locked + d) mod size three_blobs_one_locked /\
    forall k r,
      1 <= k < d ->
      vec_at (m_blob_locks three_blobs_one_locked)
        ((m_blob_index three_blobs_one_locked + k) mod size three_blobs_one_locked)
      = Some r ->
      locked_or_full three_blobs_one_locked r.
Proof.
  assert (H : reachable three_blobs_one_locked).
  { apply (reachable_step three_blobs (CallRequest 10)); [built_by 2 3 4 | reflexivity]. }
  split; [exact H|]. split; [reflexivity|]. split; [reflexivity|].
  exact (request_lock_first_fit three_blobs_one_locked 10 2 _ H eq_refl eq_refl).
Defined.

(** ** Request and release together *)

Lemma unlocked_record r :
  locked r = false -> mkBlobRecord false (current_blob_offset r) = r.
Proof. destruct r as [l o]. simpl. now intros ->. Qed.

(** X7.  In every state an allocator can reach, releasing a granted segment
    with the offset it had puts the table of records back as it was before
    the request; when the request appended the record, releasing it with
    offset 0 leaves the former table followed by one unlocked empty
    record. *)
Theorem request_release_round_trip b sz id b1 :
  reachable b ->
  request_lock b sz = Ret id b1 ->
  (forall r,
      vec_at (m_blob_locks b) id = Some r ->
      exists b2,
        release_lock b1 id (current_blob_offset r) = Ret tt b2 /\
        m_blob_locks b2 = m_blob_locks b)
  /\ (id = size b ->
      exists b2,
        release_lock b1 id 0 = Ret tt b2 /\
        m_blob_locks b2 = m_blob_locks b ++ [mkBlobRecord false 0]).
Proof.
  intros Hreach H. destruct (reachable_usable b Hreach) as [(H1 & Hs & _) _].
  destruct (request_lock_cases b sz (conj H1 Hs))
    as [(id' & r & Hr & Hat & Hav) | [(_ & _ & _ & Hr) | [(_ & _ & _ & Hr) | (_ & _ & Hr)]]];
    rewrite Hr in H; try discriminate; injection H as <- <-.
  - pose proof (vec_at_in_range _ _ _ Hat) as Hid. split.
    + intros r' Hat'. rewrite Hat in Hat'. injection Hat' as <-.
      eexists. split.
      * apply release_lock_defined. unfold in_range, size.
        cbn [m_blob_locks set_blob_locks]. now rewrite length_insert.
      * cbn [m_blob_locks set_blob_locks]. rewrite list_insert_insert_eq.
        rewrite (unlocked_record r (available_unlocked b r Hav)).
        apply list_insert_id. now apply vec_at_Some in Hat as [_ Hat].
    + unfold size in *. lia.
  - split.
    + intros r Hat. apply vec_at_in_range in Hat. unfold size in Hat. lia.
    + intros _. eexists. split.
      * apply release_lock_defined. unfold in_range, size.
        cbn [m_blob_locks set_blob_locks]. rewrite length_app. simpl. lia.
      * cbn [m_blob_locks set_blob_locks]. unfold size. rewrite Nat2Z.id.
        rewrite insert_app_r_alt by lia. now rewrite Nat.sub_diag.
Qed.

Lemma request_release_round_trip_witness :
  reachable three_blobs /\
  request_lock three_blobs 10 = Ret 1 three_blobs_one_locked /\
  vec_at (m_blob_locks three_blobs) 1 = Some fresh_record /\
  exists b2,
    release_lock three_blobs_one_locked 1 (current_blob_offset fresh_record)
    = Ret tt b2 /\
    m_blob_locks b2 = m_blob_locks three_blobs.
Proof.
  assert (H : reachable three_blobs) by built_by 2 3 4.
  split; [exact H|]. split; [reflexivity|]. split; [reflexivity|].
  exact (proj1 (request_release_round_trip three_blobs 10 1 three_blobs_one_locked
                  H eq_refl) fresh_record eq_refl).
Defined.

(** X8.  [release_lock] makes no test on the record it is given: on every
    segment id of the table it returns, whether the segment is locked or not
    and whether the offset grows or not.  Two releases of the same segment
    amount to the second one, and releases of two different segments give
    the same state in either order. *)
Theorem release_lock_composes b id1 o1 id2 o2 :
  in_range b id1 ->
  in_range b id2 ->
  exists b1,
    release_lock b id1 o1 = Ret tt b1 /\
    (id1 = id2 -> release_lock b1 id2 o2 = release_lock b id2 o2) /\
    (id1 <> id2 ->
     exists b2 b1',
       release_lock b1 id2 o2 = Ret tt b2 /\
       release_lock b id2 o2 = Ret tt b1' /\
       release_lock b1' id1 o1 = Ret tt b2).
Proof.
  intros Hid1 Hid2. eexists. split; [now apply release_lock_defined|].
  assert (Hin : forall i j o, in_range b i -> in_range b j ->
                  in_range (set_blob_locks b
                     (<[Z.to_nat i := mkBlobRecord false o]> (m_blob_locks b))) j).
  { intros i j o _ Hj. unfold in_range, size in *.
    cbn [m_blob_locks set_blob_locks]. now rewrite length_insert. }
  split.
  - intros <-. rewrite !release_lock_defined by auto.
    cbn [m_blob_locks set_blob_locks]. now rewrite list_insert_insert_eq.
  - intros Hne. eexists. eexists.
    split; [apply release_lock_defined; auto|].
    split; [apply release_lock_defined; auto|].
    rewrite release_lock_defined by auto.
    cbn [m_blob_locks set_blob_locks]. f_equal. unfold set_blob_locks. simpl.
    f_equal. apply list_insert_insert_ne.
    unfold in_range in *. lia.
Qed.

Lemma release_lock_composes_witness :
  in_range three_blobs 0 /\ in_range three_blobs 2 /\
  exists b1,
    release_lock three_blobs 0 500 = Ret tt b1 /\
    (0 = 2 -> release_lock b1 2 7 = release_lock three_blobs 2 7) /\
    (0 <> 2 ->
     exists b2 b1',
       release_lock b1 2 7 = Ret tt b2 /\
       release_lock three_blobs 2 7 = Ret tt b1' /\
       release_lock b1' 0 500 = Ret tt b2).
Proof.
  assert (H0 : in_range three_blobs 0).
  { unfold in_range. vm_compute. split; [discriminate | reflexivity]. }
  assert (H2 : in_range three_blobs 2).
  { unfold in_range. vm_compute. split; [discriminate | reflexivity]. }
  split; [exact H0|]. split; [exact H2|].
  exact (release_lock_composes three_blobs 0 500 2 7 H0 H2).
Defined.

(** ** The accessors along a run *)

(** X9.  Along every sequence of calls on an allocator in use,
    [max_blob_size] returns the same value, [num_blobs] returns the number
    of records without truncation and never decreases, and every segment id
    of the table stays one. *)
Theorem accessors_along_a_run b cs b' :
  reachable b ->
  run b cs = Some b' ->
  max_blob_size b' = max_blob_size b /\
  num_blobs b = size b /\
  num_blobs b' = size b' /\
  num_blobs b <= num_blobs b' /\
  (forall id, in_range b id -> in_range b' id).
Proof.
  intros Hreach Hrun. destruct (reachable_usable b Hreach) as [Hu Hok].
  destruct (run_preserves cs b b' Hu Hok Hrun) as (Hu' & _ & Hc & _ & Hs).
  rewrite (num_blobs_size b Hu), (num_blobs_size b' Hu').
  unfold max_blob_size, in_range. repeat split; try assumption; try lia;
    intros id Hid; lia.
Qed.

Lemma accessors_along_a_run_witness :
  reachable three_blobs /\
  run three_blobs [CallRequest 10; CallRelease 1 100; CallRequest 20]
  = Some (mkBlobManager 2097152 4
            [fresh_record; mkBlobRecord false 100; mkBlobRecord true 0] 2) /\
  max_blob_size (mkBlobManager 2097152 4
            [fresh_record; mkBlobRecord false 100; mkBlobRecord true 0] 2)
  = max_blob_size three_blobs.
Proof.
  assert (H : reachable three_blobs) by built_by 2 3 4.
  split; [exact H|]. split; [reflexivity|].
  exact (proj1 (accessors_along_a_run three_blobs
                  [CallRequest 10; CallRelease 1 100; CallRequest 20] _ H eq_refl)).
Defined.

(** ** At the limit *)

Lemma saturated_step b c b' :
  usable b -> search_ok b -> saturated b ->
  frees_no_room (m_max_blob_size b) c ->
  step b c = Some b' ->
  usable b' /\ search_ok b' /\ saturated b' /\
  m_max_blob_size b' = m_max_blob_size b.
Proof.
  intros Hu Hok [Hnone Hcap] Hc Hstep.
  destruct (step_preserves b c b' Hu Hok Hstep) as (Hu' & Hok' & Hcap' & _).
  split; [exact Hu'|]. split; [exact Hok'|]. split; [|exact Hcap'].
  unfold saturated, none_available, cap_reached in *.
  destruct c as [sz | id off]; simpl in Hstep.
  - destruct (proj2 (request_lock_throws_iff b sz Hu) (conj Hnone Hcap))
      as [b'' Hthrow].
    rewrite Hthrow in Hstep. simpl in Hstep. injection Hstep as ->.
    pose proof Hu as (H1 & Hs & _).
    destruct (request_lock_cases b sz (conj H1 Hs))
      as [(id & r & Hr & _)
         | [(_ & _ & _ & Hr) | [(_ & _ & _ & Hr) | (_ & _ & Hr)]]];
      rewrite Hr in Hthrow; try discriminate.
    injection Hthrow as <-. split; assumption.
  - apply release_lock_preserves in Hstep as (Hid & -> & Hsz).
    rewrite Hsz.
    cbn [m_blob_locks m_max_blobs set_blob_locks]. split; [|exact Hcap].
    apply Forall_insert; [exact Hnone|].
    unfold available. simpl in *. apply Z.ltb_ge. exact Hc.
Qed.

Lemma saturated_run cs :
  forall b b',
    usable b -> search_ok b -> saturated b ->
    Forall (frees_no_room (m_max_blob_size b)) cs ->
    run b cs = Some b' ->
    usable b' /\ saturated b'.
Proof.
  induction cs as [|c cs IH]; intros b b' Hu Hok Hsat Hcs Hrun; simpl in Hrun.
  - injection Hrun as <-. auto.
  - destruct (step b c) as [b1|] eqn:Hstep; [|discriminate].
    apply Forall_cons in Hcs as [Hc Hcs].
    destruct (saturated_step b c b1 Hu Hok Hsat Hc Hstep)
      as (Hu1 & Hok1 & Hsat1 & Hcap1).
    rewrite <- Hcap1 in Hcs. exact (IH b1 b' Hu1 Hok1 Hsat1 Hcs Hrun).
Qed.

(** X10.  Once [request_lock] has thrown, it throws again after every
    sequence of further requests and of releases whose offset is at or above
    the capacity: only a release below the capacity ends the failure. *)
Theorem capacity_failure_persists b sz e b1 cs b2 sz' :
  reachable b ->
  request_lock b sz = Throw e b1 ->
  Forall (frees_no_room (max_blob_size b)) cs ->
  run b1 cs = Some b2 ->
  exists b3, request_lock b2 sz' = Throw BlobLimitErr b3.
Proof.
  intros Hreach Hthrow Hcs Hrun.
  destruct (reachable_usable b Hreach) as [Hu Hok].
  assert (Hreach1 : reachable b1).
  { apply (reachable_step b (CallRequest sz)); [exact Hreach|].
    simpl. now rewrite Hthrow. }
  destruct (reachable_usable b1 Hreach1) as [Hu1 Hok1].
  assert (Hsat : saturated b).
  { apply (request_lock_throws_iff b sz Hu).
    pose proof Hu as (H1 & Hs & _).
    destruct (request_lock_cases b sz (conj H1 Hs))
      as [(id & r & Hr & _)
         | [(_ & _ & _ & Hr) | [(_ & _ & _ & Hr) | (_ & _ & Hr)]]];
      rewrite Hr in Hthrow; try discriminate.
    injection Hthrow as <- <-. eauto. }
  assert (Hstep : step b (CallRequest sz) = Some b1) by (simpl; now rewrite Hthrow).
  destruct (saturated_step b (CallRequest sz) b1 Hu Hok Hsat I Hstep)
    as (_ & _ & Hsat1 & Hcap1).
  unfold max_blob_size in Hcs. rewrite <- Hcap1 in Hcs.
  destruct (saturated_run cs b1 b2 Hu1 Hok1 Hsat1 Hcs Hrun) as [Hu2 Hsat2].
  exact (proj2 (request_lock_throws_iff b2 sz' Hu2) Hsat2).
Qed.

Lemma capacity_failure_persists_witness :
  reachable one_blob_locked /\
  request_lock one_blob_locked 10 = Throw BlobLimitErr one_blob_locked /\
  Forall (frees_no_room (max_blob_size one_blob_locked))
    [CallRequest 5; CallRelease 0 2097152; CallRequest 6] /\
  run one_blob_locked [CallRequest 5; CallRelease 0 2097152; CallRequest 6]
  = Some (mkBlobManager 2097152 1 [mkBlobRecord false 2097152] 0) /\
  exists b3,
    request_lock (mkBlobManager 2097152 1 [mkBlobRecord false 2097152] 0) 7
    = Throw BlobLimitErr b3.
Proof.
  assert (H : reachable one_blob_locked).
  { apply (reachable_step one_blob (CallRequest 10)); [built_by 2 1 1 | reflexivity]. }
  assert (Hcs : Forall (frees_no_room (max_blob_size one_blob_locked))
                  [CallRequest 5; CallRelease 0 2097152; CallRequest 6]).
  { repeat constructor. vm_compute. discriminate. }
  split; [exact H|]. split; [reflexivity|]. split; [exact Hcs|].
  split; [reflexivity|].
  exact (capacity_failure_persists one_blob_locked 10 BlobLimitErr one_blob_locked
           [CallRequest 5; CallRelease 0 2097152; CallRequest 6] _ 7
           H eq_refl Hcs eq_refl).
Defined.

(** X11.  After [request_lock] has thrown, the release of any segment of
    the table with an offset below the capacity returns, and the request
    that follows is granted exactly that segment. *)
Theorem released_segment_is_granted_next b sz e b1 id off sz' :
  reachable b ->
  request_lock b sz = Throw e b1 ->
  in_range b id ->
  off < max_blob_size b ->
  exists b2 b3,
    release_lock b1 id off = Ret tt b2 /\
    request_lock b2 sz' = Ret id b3.
Proof.
  intros Hreach Hthrow Hid Hoff.
  destruct (reachable_usable b Hreach) as [Hu Hok].
  pose proof Hu as (H1 & Hs & Hm & Hc & Hnn).
  destruct (request_lock_cases b sz (conj H1 Hs))
    as [(id0 & r0 & Hr & _)
       | [(_ & _ & _ & Hr) | [(_ & _ & _ & Hr) | (Hall & Hcap & Hr)]]];
    rewrite Hr in Hthrow; try discriminate.
  injection Hthrow as <- <-.
  assert (Hid1 : in_range (advanced b) id) by exact Hid.
  pose proof (release_lock_defined (advanced b) id off Hid1) as Hrel.
  set (b2 := set_blob_locks (advanced b)
               (<[Z.to_nat id := mkBlobRecord false off]> (m_blob_locks (advanced b))))
    in *.
  assert (Hsz2 : size b2 = size b).
  { unfold size, b2. cbn [m_blob_locks set_blob_locks advanced set_blob_index].
    now rewrite length_insert. }
  destruct (vec_at_defined (m_blob_locks b) id Hid) as [rid Hrid].
  assert (Hat2 : vec_at (m_blob_locks b2) id = Some (mkBlobRecord false off)).
  { unfold b2. cbn [m_blob_locks set_blob_locks advanced set_blob_index].
    now apply vec_at_insert_eq with rid. }
  assert (Hav2 : available b2 (mkBlobRecord false off) = true).
  { apply available_below; [exact Hc | reflexivity | exact Hoff]. }
  destruct (request_lock_cases b2 sz' ltac:(rewrite Hsz2; auto))
    as [(id' & r' & Hr' & Hat' & Hav')
       | [(Hall' & _) | [(Hall' & _) | (Hall' & _)]]].
  - destruct (Z.eq_dec id' id) as [-> | Hne].
    + eexists. eexists. split; [exact Hrel | exact Hr'].
    + exfalso. unfold b2 in Hat'.
      cbn [m_blob_locks set_blob_locks advanced set_blob_index] in Hat'.
      rewrite vec_at_insert_ne in Hat' by (unfold in_range in Hid; try lia; exact Hne).
      rewrite Forall_vec_at in Hall. specialize (Hall id' r' Hat').
      change (available b2 r') with (available b r') in Hav'. congruence.
  - exfalso. rewrite Forall_vec_at in Hall'.
    specialize (Hall' id _ Hat2). congruence.
  - exfalso. rewrite Forall_vec_at in Hall'.
    specialize (Hall' id _ Hat2). congruence.
  - exfalso. rewrite Forall_vec_at in Hall'.
    specialize (Hall' id _ Hat2). congruence.
Qed.

Lemma released_segment_is_granted_next_witness :
  reachable one_blob_locked /\
  request_lock one_blob_locked 10 = Throw BlobLimitErr one_blob_locked /\
  in_range one_blob_locked 0 /\
  100 < max_blob_size one_blob_locked /\
  exists b2 b3,
    release_lock one_blob_locked 0 100 = Ret tt b2 /\
    request_lock b2 20 = Ret 0 b3.
Proof.
  assert (H : reachable one_blob_locked).
  { apply (reachable_step one_blob (CallRequest 10)); [built_by 2 1 1 | reflexivity]. }
  assert (Hid : in_range one_blob_locked 0).
  { unfold in_range. vm_compute. split; [discriminate | reflexivity]. }
  assert (Hoff : 100 < max_blob_size one_blob_locked) by reflexivity.
  split; [exact H|]. split; [reflexivity|]. split; [exact Hid|].
  split; [exact Hoff|].
  exact (released_segment_is_granted_next one_blob_locked 10 BlobLimitErr
           one_blob_locked 0 100 20 H eq_refl Hid Hoff).
Defined.

(** ** Counting the locks *)

Lemma count_locked_insert v :
  forall k r r',
    v !! k = Some r ->
    (count_locked (<[k := r']> v) + (if locked r then 1 else 0)
     = count_locked v + (if locked r' then 1 else 0))%nat.
Proof.
  unfold count_locked.
  induction v as [|r0 v IH]; intros k r r' Hk; [discriminate|].
  destruct k as [|k]; simpl in *.
  - injection Hk as ->. destruct (locked r), (locked r'); simpl; lia.
  - specialize (IH k r r' Hk). destruct (locked r0); simpl; lia.
Qed.

Lemma count_locked_app v w :
  count_locked (v ++ w) = (count_locked v + count_locked w)%nat.
Proof.
  unfold count_locked. now rewrite List.filter_app, length_app.
Qed.

(** X12.  In every state an allocator can reach, a [request_lock] that
    returns raises the number of locked records by exactly one and one that
    throws leaves it; a [release_lock] lowers it by one when the segment was
    locked and leaves it when the segment was not. *)
Theorem locked_count_follows_calls b :
  reachable b ->
  (forall sz id b',
      request_lock b sz = Ret id b' ->
      count_locked (m_blob_locks b') = S (count_locked (m_blob_locks b)))
  /\ (forall sz e b',
         request_lock b sz = Throw e b' ->
         count_locked (m_blob_locks b') = count_locked (m_blob_locks b))
  /\ (forall id off b',
         release_lock b id off = Ret tt b' ->
         is_locked b id = Some true ->
         S (count_locked (m_blob_locks b')) = count_locked (m_blob_locks b))
  /\ (forall id off b',
         release_lock b id off = Ret tt b' ->
         is_locked b id = Some false ->
         count_locked (m_blob_locks b') = count_locked (m_blob_locks b)).
Proof.
  intros Hreach. destruct (reachable_usable b Hreach) as [(H1 & Hs & _) _].
  split; [|split; [|split]].
  - intros sz id b' H.
    destruct (request_lock_cases b sz (conj H1 Hs))
      as [(id' & r & Hr & Hat & Hav) | [(_ & _ & _ & Hr) | [(_ & _ & _ & Hr) | (_ & _ & Hr)]]];
      rewrite Hr in H; try discriminate; injection H as <- <-;
      cbn [m_blob_locks set_blob_locks].
    + apply vec_at_Some in Hat as [_ Hat].
      pose proof (count_locked_insert _ _ _ (set_locked true r) Hat) as Hc.
      pose proof (available_unlocked _ _ Hav) as Hl.
      rewrite Hl in Hc. simpl in Hc. lia.
    + rewrite count_locked_app. unfold count_locked at 2. simpl. lia.
  - intros sz e b' H.
    destruct (request_lock_cases b sz (conj H1 Hs))
      as [(id' & r & Hr & _) | [(_ & _ & _ & Hr) | [(_ & _ & _ & Hr) | (_ & _ & Hr)]]];
      rewrite Hr in H; try discriminate. now injection H as <- <-.
  - intros id off b' H Hl.
    assert (Hst : state_of (release_lock b id off) = Some b') by now rewrite H.
    apply release_lock_preserves in Hst as (_ & -> & _).
    apply is_locked_Some in Hl as (r & Hat & Hl).
    apply vec_at_Some in Hat as [_ Hat].
    pose proof (count_locked_insert _ _ _ (mkBlobRecord false off) Hat) as Hc.
    rewrite Hl in Hc. simpl in Hc. cbn [m_blob_locks set_blob_locks]. lia.
  - intros id off b' H Hl.
    assert (Hst : state_of (release_lock b id off) = Some b') by now rewrite H.
    apply release_lock_preserves in Hst as (_ & -> & _).
    apply is_locked_Some in Hl as (r & Hat & Hl).
    apply vec_at_Some in Hat as [_ Hat].
    pose proof (count_locked_insert _ _ _ (mkBlobRecord false off) Hat) as Hc.
    rewrite Hl in Hc. simpl in Hc. cbn [m_blob_locks set_blob_locks]. lia.
Qed.

Lemma locked_count_follows_calls_witness :
  reachable three_blobs /\
  request_lock three_blobs 10 = Ret 1 three_blobs_one_locked /\
  count_locked (m_blob_locks three_blobs_one_locked)
  = S (count_locked (m_blob_locks three_blobs)).
Proof.
  assert (H : reachable three_blobs) by built_by 2 3 4.
  split; [exact H|]. split; [reflexivity|].
  exact (proj1 (locked_count_follows_calls three_blobs H) 10 1
           three_blobs_one_locked eq_refl).
Defined.

(** ** How many grants are left *)

Lemma count_available_app b v w :
  count_available b (v ++ w) = (count_available b v + count_available b w)%nat.
Proof.
  unfold count_available. now rewrite List.filter_app, length_app.
Qed.

Lemma count_available_fresh b k :
  in_int64 (m_max_blob_size b) ->
  0 < m_max_blob_size b ->
  count_available b (replicate k fresh_record) = k.
Proof.
  intros Hc Hpos. unfold count_available.
  induction k as [|k IH]; [reflexivity|]. simpl.
  assert (Hav : available b fresh_record = true).
  { apply available_below; [exact Hc | reflexivity | exact Hpos]. }
  rewrite Hav. simpl. now rewrite IH.
Qed.

(** While grants are left a request returns and uses one up; when none is
    left it throws. *)
Lemma request_lock_grants_left b sz :
  usable b -> size b <= m_max_blobs b ->
  (0 < grants_left b ->
   exists id b',
     request_lock b sz = Ret id b' /\
     usable b' /\ size b' <= m_max_blobs b' /\
     grants_left b' = grants_left b - 1)
  /\ (grants_left b <= 0 ->
      exists b', request_lock b sz = Throw BlobLimitErr b').
Proof.
  intros Hu Hle. pose proof Hu as (H1 & Hs & Hm & _).
  pose proof (proj1 (to_size_t_cap _ Hm) ltac:(lia)) as Hcap.
  destruct (request_lock_cases b sz (conj H1 Hs))
    as [(id & r & Hr & Hat & Hav)
       | [(Hall & Hlt & _ & Hr) | [(_ & _ & Heq & _) | (Hall & Hge & Hr)]]].
  - assert (Hst : state_of (request_lock b sz) = Some
                    (set_blob_locks (set_blob_index b id)
                       (<[Z.to_nat id:=set_locked true r]> (m_blob_locks b))))
      by now rewrite Hr.
    destruct (request_lock_preserves b sz _ Hu Hst) as (Hu' & _ & _ & _ & _).
    apply vec_at_Some in Hat as [_ Hat].
    pose proof (count_available_lock b _ _ _ Hat Hav) as Hc.
    assert (Hg : grants_left
                   (set_blob_locks (set_blob_index b id)
                      (<[Z.to_nat id:=set_locked true r]> (m_blob_locks b)))
                 = grants_left b - 1).
    { unfold grants_left, size, count_available in *.
      cbn [m_blob_locks m_max_blobs set_blob_locks set_blob_index].
      change (available (set_blob_locks (set_blob_index b id)
                           (<[Z.to_nat id:=set_locked true r]> (m_blob_locks b))))
        with (available b).
      rewrite length_insert. lia. }
    split.
    + intros _. eexists. eexists. split; [exact Hr|]. split; [exact Hu'|].
      split; [|exact Hg].
      unfold size in *. cbn [m_blob_locks m_max_blobs set_blob_locks set_blob_index].
      rewrite length_insert. lia.
    + intros Hz. exfalso. unfold grants_left in Hz. lia.
  - assert (Hst : state_of (request_lock b sz) = Some
                    (set_blob_locks (advanced b)
                       (m_blob_locks b ++ [set_locked true fresh_record])))
      by now rewrite Hr.
    destruct (request_lock_preserves b sz _ Hu Hst) as (Hu' & _ & _ & _ & _).
    apply count_available_zero in Hall.
    split.
    + intros _. eexists. eexists. split; [exact Hr|]. split; [exact Hu'|].
      unfold grants_left, size in *.
      cbn [m_blob_locks m_max_blobs set_blob_locks set_blob_index advanced].
      rewrite length_app. simpl. split; [lia|].
      unfold count_available in *.
      change (available (set_blob_locks (advanced b)
                           (m_blob_locks b ++ [set_locked true fresh_record])))
        with (available b).
      rewrite List.filter_app, length_app. simpl. lia.
    + intros Hz. exfalso. unfold grants_left in Hz. lia.
  - exfalso. destruct Hu as (_ & _ & _ & _ & Hnn). lia.
  - split.
    + intros Hpos. exfalso. apply count_available_zero in Hall.
      unfold grants_left in Hpos. lia.
    + intros _. eauto.
Qed.

Lemma request_all_grants_left sizes :
  forall b,
    usable b -> size b <= m_max_blobs b ->
    Z.of_nat (length sizes) = grants_left b ->
    exists ids b',
      request_all b sizes = Some (ids, b') /\
      length ids = length sizes /\
      usable b' /\ size b' <= m_max_blobs b' /\ grants_left b' = 0.
Proof.
  induction sizes as [|sz sizes IH]; intros b Hu Hle Hlen; simpl in *.
  - exists [], b. repeat split; try apply Hu; auto.
  - destruct (proj1 (request_lock_grants_left b sz Hu Hle) ltac:(lia))
      as (id & b1 & Hr & Hu1 & Hle1 & Hg1).
    destruct (IH b1 Hu1 Hle1 ltac:(lia)) as (ids & b' & Hall & Hl & Hu' & Hle' & Hg').
    exists (id :: ids), b'. rewrite Hr, Hall. simpl.
    repeat split; try apply Hu'; auto.
Qed.

(** X13.  In a reachable state whose number of records is within the cap,
    the requests that can be granted without a release are exactly the
    available records plus the records that may still be appended: that many
    requests in a row all return and the next one throws.  On an allocator
    built with a positive capacity and an initial number of records within
    the cap, this number is the cap. *)
Theorem grants_before_the_limit :
  (forall b sizes sz,
      reachable b ->
      size b <= m_max_blobs b ->
      Z.of_nat (length sizes) = grants_left b ->
      exists ids b',
        request_all b sizes = Some (ids, b') /\
        length ids = length sizes /\
        exists b'', request_lock b' sz = Throw BlobLimitErr b'')
  /\ (forall mb n m b0,
         construct mb n m = inr b0 ->
         0 < max_blob_size b0 ->
         n <= m ->
         grants_left b0 = m).
Proof.
  split.
  - intros b sizes sz Hreach Hle Hlen.
    destruct (reachable_usable b Hreach) as [Hu _].
    destruct (request_all_grants_left sizes b Hu Hle Hlen)
      as (ids & b' & Hall & Hl & Hu' & Hle' & Hg').
    exists ids, b'. split; [exact Hall|]. split; [exact Hl|].
    apply (proj2 (request_lock_grants_left b' sz Hu' Hle')). lia.
  - intros mb n m b0 Hc Hpos Hnm.
    pose proof (construct_size _ _ _ _ Hc) as Hsz.
    pose proof (construct_inr _ _ _ _ Hc) as (H1 & _ & Hmax & Hv & _).
    unfold grants_left. rewrite Hsz, Hmax, Hv.
    rewrite count_available_fresh; [lia | | exact Hpos].
    destruct (construct_inr _ _ _ _ Hc) as (_ & -> & _).
    apply wrap_int64_range.
Qed.

Lemma grants_before_the_limit_witness :
  reachable three_blobs_one_locked /\
  size three_blobs_one_locked <= m_max_blobs three_blobs_one_locked /\
  Z.of_nat (length [10; 20; 30]) = grants_left three_blobs_one_locked /\
  (exists ids b',
      request_all three_blobs_one_locked [10; 20; 30] = Some (ids, b') /\
      length ids = length [10; 20; 30] /\
      exists b'', request_lock b' 40 = Throw BlobLimitErr b'') /\
  construct 2 3 4 = inr three_blobs /\
  0 < max_blob_size three_blobs /\
  3 <= 4 /\
  grants_left three_blobs = 4.
Proof.
  assert (H : reachable three_blobs_one_locked).
  { apply (reachable_step three_blobs (CallRequest 10)); [built_by 2 3 4 | reflexivity]. }
  assert (Hle : size three_blobs_one_locked <= m_max_blobs three_blobs_one_locked).
  { vm_compute. discriminate. }
  split; [exact H|]. split; [exact Hle|]. split; [reflexivity|].
  split.
  { exact (proj1 grants_before_the_limit three_blobs_one_locked [10; 20; 30] 40
             H Hle eq_refl). }
  split; [reflexivity|]. split; [reflexivity|]. split; [lia|].
  apply (proj2 grants_before_the_limit 2 3 4 three_blobs); [reflexivity | reflexivity | lia].
Defined.

(** ** Requests in a row *)

Lemma request_all_distinct sizes :
  forall b ids b',
    usable b ->
    request_all b sizes = Some (ids, b') ->
    NoDup ids /\
    (forall id, id ∈ ids -> is_locked b id <> Some true) /\
    (forall id, id ∈ ids -> is_locked b' id = Some true) /\
    (forall id, is_locked b id = Some true -> is_locked b' id = Some true).
Proof.
  induction sizes as [|sz sizes IH]; intros b ids b' Hu H; simpl in H.
  - injection H as <- <-. split; [constructor|].
    split; [intros id Hin; inversion Hin|].
    split; [intros id Hin; inversion Hin | auto].
  - destruct (request_lock b sz) as [id b1| | |] eqn:Hr; try discriminate.
    destruct (request_all b1 sizes) as [[ids' b2]|] eqn:Hall; [|discriminate].
    injection H as <- <-.
    assert (Hst : state_of (request_lock b sz) = Some b1) by now rewrite Hr.
    destruct (request_lock_preserves b sz b1 Hu Hst) as (Hu1 & _).
    destruct (IH b1 ids' b2 Hu1 Hall) as (Hnd & Hfree & Hlocked & Hkeep).
    pose proof (request_lock_locks id b sz b1 Hu Hr) as Hl1.
    split; [|split; [|split]].
    + constructor; [|exact Hnd]. intros Hin. exact (Hfree id Hin Hl1).
    + intros x Hin Hlx. apply elem_of_cons in Hin as [-> | Hin].
      * exact (request_lock_avoids_locked id b sz id b1 Hu Hlx Hr eq_refl).
      * apply (Hfree x Hin).
        exact (request_lock_keeps_locked x b sz b1 Hu Hlx Hst).
    + intros x Hin. apply elem_of_cons in Hin as [-> | Hin]; auto.
    + intros x Hlx. apply Hkeep.
      exact (request_lock_keeps_locked x b sz b1 Hu Hlx Hst).
Qed.

(** X14.  In every state an allocator can reach, requests made in a row
    with no release in between are granted pairwise different segments, none
    of which was locked before the first request, and all of which are
    locked after the last one. *)
Theorem requests_in_a_row_are_distinct b sizes ids b' :
  reachable b ->
  request_all b sizes = Some (ids, b') ->
  NoDup ids /\
  (forall id, id ∈ ids ->
              is_locked b id <> Some true /\ is_locked b' id = Some true).
Proof.
  intros Hreach H. destruct (reachable_usable b Hreach) as [Hu _].
  destruct (request_all_distinct sizes b ids b' Hu H) as (Hnd & Hfree & Hlocked & _).
  split; [exact Hnd|]. intros id Hin. split; auto.
Qed.

Lemma requests_in_a_row_are_distinct_witness :
  reachable three_blobs /\
  request_all three_blobs [10; 20; 30; 40]
  = Some ([1; 2; 0; 3],
          mkBlobManager 2097152 4
            [mkBlobRecord true 0; mkBlobRecord true 0; mkBlobRecord true 0;
             mkBlobRecord true 0] 1) /\
  NoDup [1; 2; 0; 3].
Proof.
  assert (H : reachable three_blobs) by built_by 2 3 4.
  split; [exact H|]. split; [reflexivity|].
  exact (proj1 (requests_in_a_row_are_distinct three_blobs [10; 20; 30; 40] _ _
                  H eq_refl)).
Defined.
